(** * dataset-xschema: the schema-enforcing table wrapper

    A shallow embedding of [dataset_xschema/util.py] and
    [dataset_xschema/table.py], and the properties of the value normalizer,
    the refresh scan and the uniqueness bookkeeping proved over it.

    Conventions of the embedding:
    - a Python [str] is a [string], the text in UTF-8; only the tests on the
      ASCII characters ['.'] and ['-'] look inside it, and everything Python
      or a library decides about a text ([strip], [isdigit], [int], [float],
      NFKD, the date parser) is taken from outside, with the exceptions it
      can raise;
    - a record (a Python [dict], which keeps insertion order) is an
      association list, fields in iteration order;
    - a Python [set] is a [gset], a [dict] used only as a map is a [gmap];
    - a generator is the list of what it yields and the exception that ends
      it, if one does;
    - a method of [XSchemaTable] is a function of the table state returning
      an outcome (a value or the exception raised) and the state it leaves. *)

From Stdlib Require Import ZArith Ascii String.
From stdpp Require Import base numbers option list strings countable gmap sets.

Local Open Scope Z_scope.
Local Open Scope string_scope.
Local Open Scope list_scope.

(** ** Python strings *)

Module PyStr.

(** [c in s] for a one-character ASCII [c]. *)
Fixpoint contains (c : ascii) (s : string) : bool :=
  match s with
  | EmptyString => false
  | String d s' => if decide (c = d) then true else contains c s'
  end.

(** [s.replace(c, '', 1)]: the first occurrence of [c] is dropped. *)
Fixpoint remove_first (c : ascii) (s : string) : string :=
  match s with
  | EmptyString => EmptyString
  | String d s' => if decide (c = d) then s' else String d (remove_first c s')
  end.

End PyStr.

(** ** Values, type objects and exceptions *)

(** The scalars a record holds. A [float] is the double it is, by its 64
    bits; a [date] is its day number, a [datetime] a day number and the
    microsecond of the day. *)
Inductive value : Type :=
  | VNone
  | VBool (b : bool)
  | VInt (n : Z)
  | VFloat (bits : N)
  | VStr (s : string)
  | VDate (day : Z)
  | VDatetime (day : Z) (usec : Z).

(** The classes [type(x)] can return for such a scalar. *)
Inductive pytype : Type :=
  | NoneType | TBool | TInt | TFloat | TStr | TDate | TDatetime.

(** What [parse_record] yields next to a key, and what a seen-set can hold:
    a scalar or a class. *)
Inductive pyobj : Type :=
  | OValue (v : value)
  | OType (t : pytype).

Global Instance value_eq_dec : EqDecision value.
Proof. solve_decision. Defined.

Global Instance pytype_eq_dec : EqDecision pytype.
Proof. solve_decision. Defined.

Global Instance pyobj_eq_dec : EqDecision pyobj.
Proof. solve_decision. Defined.

Definition value_code (v : value)
  : unit + bool + Z + N + string + Z + (Z * Z) :=
  match v with
  | VNone => inl (inl (inl (inl (inl (inl tt)))))
  | VBool b => inl (inl (inl (inl (inl (inr b)))))
  | VInt n => inl (inl (inl (inl (inr n))))
  | VFloat x => inl (inl (inl (inr x)))
  | VStr s => inl (inl (inr s))
  | VDate d => inl (inr d)
  | VDatetime d u => inr (d, u)
  end.

Definition value_decode
  (c : unit + bool + Z + N + string + Z + (Z * Z)) : value :=
  match c with
  | inl (inl (inl (inl (inl (inl _))))) => VNone
  | inl (inl (inl (inl (inl (inr b))))) => VBool b
  | inl (inl (inl (inl (inr n)))) => VInt n
  | inl (inl (inl (inr x))) => VFloat x
  | inl (inl (inr s)) => VStr s
  | inl (inr d) => VDate d
  | inr (d, u) => VDatetime d u
  end.

Global Instance value_countable : Countable value.
Proof. apply (inj_countable' value_code value_decode). by intros []. Defined.

Definition pytype_code (t : pytype) : nat :=
  match t with
  | NoneType => 0 | TBool => 1 | TInt => 2 | TFloat => 3
  | TStr => 4 | TDate => 5 | TDatetime => 6
  end%nat.

Definition pytype_decode (n : nat) : pytype :=
  match n with
  | 0 => NoneType | 1 => TBool | 2 => TInt | 3 => TFloat
  | 4 => TStr | 5 => TDate | _ => TDatetime
  end%nat.

Global Instance pytype_countable : Countable pytype.
Proof. apply (inj_countable' pytype_code pytype_decode). by intros []. Defined.

Global Instance pyobj_countable : Countable pyobj.
Proof.
  apply (inj_countable'
    (λ o, match o with OValue v => inl v | OType t => inr t end)
    (λ c, match c with inl v => OValue v | inr t => OType t end)).
  by intros [].
Defined.

(** [type(x)] *)
Definition type_of (x : value) : pytype :=
  match x with
  | VNone => NoneType
  | VBool _ => TBool
  | VInt _ => TInt
  | VFloat _ => TFloat
  | VStr _ => TStr
  | VDate _ => TDate
  | VDatetime _ _ => TDatetime
  end.

(** [isinstance(x, date)]; [datetime] is a subclass of [date]. *)
Definition is_date (x : value) : bool :=
  match x with VDate _ | VDatetime _ _ => true | _ => false end.

(** [datetime.combine(x, datetime.min.time())]: the day of [x] at midnight;
    the time of day of a [datetime] argument is ignored. *)
Definition combine_min (x : value) : value :=
  match x with
  | VDate d => VDatetime d 0
  | VDatetime d _ => VDatetime d 0
  | _ => x
  end.

(** [str(t)] of a class. *)
Definition str_of_type (t : pytype) : string :=
  match t with
  | NoneType => "<class 'NoneType'>"
  | TBool => "<class 'bool'>"
  | TInt => "<class 'int'>"
  | TFloat => "<class 'float'>"
  | TStr => "<class 'str'>"
  | TDate => "<class 'datetime.date'>"
  | TDatetime => "<class 'datetime.datetime'>"
  end.

(** A field of a record, and a record. *)
Definition record : Type := list (string * value).

(** An entry of [ConstraintMapping.type_]: one class in steady state, a list
    of classes while a report is being built. *)
Inductive type_entry : Type :=
  | Single (t : pytype)
  | Many (ts : list pyobj).

Global Instance type_entry_eq_dec : EqDecision type_entry.
Proof. solve_decision. Defined.


(** The exceptions of [exception.py] with what their message is formatted
    from; Python's [ValueError], [OverflowError], [AssertionError] and
    [IndexError]; and the error of the storage collaborator, which this code
    never inspects. *)
Inductive exn : Type :=
  | NonUniformTypeException (observed : pyobj) (expected : type_entry)
  | NotNullException (is_null : gset string)
  | NotUniqueException (v : pyobj) (k : string)
  | ValueError
  | OverflowError
  | AssertionError
  | IndexError
  | StorageError.

Global Instance exn_eq_dec : EqDecision exn.
Proof. solve_decision. Defined.

Inductive result (A : Type) : Type :=
  | Ok (a : A)
  | Raise (e : exn).
Arguments Ok {A} a.
Arguments Raise {A} e.

Global Instance result_eq_dec {A} `{EqDecision A} : EqDecision (result A).
Proof. solve_decision. Defined.

(** A generator run to its end: the items it yields, and the exception that
    ends it if one does. *)
Definition generator (A : Type) : Type := list A * option exn.

(** The [yield_] argument of [parse_record]: ['type'], ['record'], or any
    other value. *)
Inductive yield_mode : Type := YType | YRecord | YOther.

(** What [dateutil.parser.parse] does with a text: a datetime (day and
    microsecond of the day), its [ParserError], which is a [ValueError], or
    the [OverflowError] it raises when the date parsed is out of range. *)
Inductive parsed : Type :=
  | Parsed (day usec : Z)
  | ParserValueError
  | ParserOverflowError.

(** ** The constraint mapping *)

(** Modelled from the spec: [constraint.py] (the classes [ConstraintMapping]
    and [Constraint]) is not among the sources. The spec gives the mapping
    three parts: [type_], from column to a class or, while a report is
    built, a list; [not_null], a set of columns; [preexisting], from each
    column marked unique to its set of previously seen objects. *)
Record ConstraintMapping : Type := {
  type_ : gmap string type_entry;
  not_null : gset string;
  preexisting : gmap string (gset pyobj)
}.

Global Instance ConstraintMapping_eq_dec : EqDecision ConstraintMapping.
Proof. solve_decision. Defined.

(** Modelled from the spec: a mapping is created empty. *)
Definition ConstraintMapping_new : ConstraintMapping :=
  {| type_ := ∅; not_null := ∅; preexisting := ∅ |}.

(** Modelled from the spec: what a caller declares for a column, a bare
    class, or a constraint with an optional class and the two flags. *)
Inductive declaration : Type :=
  | DeclType (t : pytype)
  | DeclConstraint (ty : option pytype) (unique : bool) (required : bool).

Definition declare (cm : ConstraintMapping) (kd : string * declaration)
  : ConstraintMapping :=
  let '(k, d) := kd in
  match d with
  | DeclType t =>
      {| type_ := <[k := Single t]> (type_ cm);
         not_null := not_null cm;
         preexisting := preexisting cm |}
  | DeclConstraint ty unique required =>
      {| type_ := match ty with
                  | Some t => <[k := Single t]> (type_ cm)
                  | None => type_ cm
                  end;
         not_null := if required then {[k]} ∪ not_null cm else not_null cm;
         preexisting := if unique
                        then match preexisting cm !! k with
                             | Some _ => preexisting cm
                             | None => <[k := ∅]> (preexisting cm)
                             end
                        else preexisting cm |}
  end.

(** Modelled from the spec: [ConstraintMapping.update(schema_dict)] merges
    the declared classes and flags into the current state, column by column;
    a column newly marked unique starts with an empty seen-set. *)
Definition ConstraintMapping_update (schema_dict : list (string * declaration))
  (cm : ConstraintMapping) : ConstraintMapping :=
  foldl declare cm schema_dict.

(** Modelled from the spec: one column of the snapshot [view()] returns. *)
Record Constraint : Type := {
  c_type : option type_entry;
  c_not_null : bool;
  c_unique : bool
}.

Global Instance Constraint_eq_dec : EqDecision Constraint.
Proof. solve_decision. Defined.

Definition view_column (cm : ConstraintMapping) (k : string) : Constraint :=
  {| c_type := type_ cm !! k;
     c_not_null := bool_decide (k ∈ not_null cm);
     c_unique := bool_decide (k ∈ dom (preexisting cm)) |}.

(** Modelled from the spec: [ConstraintMapping.view()], the snapshot that
    gives, for every column the mapping knows, its type entry and flags. *)
Definition ConstraintMapping_view (cm : ConstraintMapping)
  : gmap string Constraint :=
  set_to_map (λ k, (k, view_column cm k))
    (dom (type_ cm) ∪ not_null cm ∪ dom (preexisting cm)).

(** ** The storage collaborator and the table state *)

(** [dataset.table.Table], the base class, is outside this repository. Its
    methods are taken as they are used. A read ([all], [find]) gives the
    stored rows, or those the filter matches, unless the storage fails, and
    then it raises. A write gives, from the stored rows, what it returns or
    raises and the rows it leaves; what else a base method does on the way
    (in [dataset], [insert_ignore] and [upsert] go through the table's own
    [insert] and [update]) is not followed. The pass-through arguments
    [ensure], [types], [chunk_size] and [return_count] are left out; a
    filter ([*clauses, **filters]) is a predicate on records. *)
Record Table : Type := {
  Table_all_ok : list record → bool;
  Table_find_ok : (record → bool) → list record → bool;
  Table_insert : record → list record → result value * list record;
  Table_insert_ignore :
    record → list string → list record → result value * list record;
  Table_insert_many :
    list record → list record → result value * list record;
  Table_update :
    record → list string → list record → result value * list record;
  Table_upsert :
    record → list string → list record → result value * list record;
  Table_delete :
    (record → bool) → list record → result value * list record
}.

(** The calls an operation makes on the base class and on [refresh], in
    order; kept so that what ran, and when, can be stated. *)
Inductive call : Type :=
  | CallRefresh
  | CallAll
  | CallFind
  | CallInsert (row : record)
  | CallInsertIgnore (row : record)
  | CallInsertMany (rows : list record)
  | CallUpdate (row : record)
  | CallUpsert (row : record)
  | CallDelete.

Global Instance call_eq_dec : EqDecision call.
Proof. solve_decision. Defined.

(** An [XSchemaTable]: the rows in storage, the mapping the wrapper owns,
    and the calls made so far. *)
Record XSchemaTable : Type := {
  rows : list record;
  constraint_mapping : ConstraintMapping;
  calls : list call
}.

Global Instance XSchemaTable_eq_dec : EqDecision XSchemaTable.
Proof. solve_decision. Defined.

(** ** Methods as state transformers *)

Definition M (A : Type) : Type := XSchemaTable → result A * XSchemaTable.

Definition ret {A} (a : A) : M A := λ self, (Ok a, self).

Definition raise {A} (e : exn) : M A := λ self, (Raise e, self).

Definition bind {A B} (m : M A) (k : A → M B) : M B :=
  λ self, match m self with
          | (Ok a, self') => k a self'
          | (Raise e, self') => (Raise e, self')
          end.

Notation "'let!' x ':=' m 'in' k" := (bind m (λ x, k))
  (at level 10, x name, m at level 100, k at level 200).
Notation "m ';;;' k" := (bind m (λ _, k))
  (at level 100, k at level 200, right associativity).

Definition gets {A} (f : XSchemaTable → A) : M A := λ self, (Ok (f self), self).

Definition lift {A} (r : result A) : M A := λ self, (r, self).

Definition set_mapping (cm : ConstraintMapping) : M unit :=
  λ self, (Ok tt, {| rows := rows self; constraint_mapping := cm;
                     calls := calls self |}).

Definition record_call (c : call) : M unit :=
  λ self, (Ok tt, {| rows := rows self;
                     constraint_mapping := constraint_mapping self;
                     calls := calls self ++ [c] |}).

(** [try: m finally: cleanup]. The cleanup runs whatever [m] did; if it
    raises, its exception is the one that leaves the statement. *)
Definition try_finally {A} (m : M A) (cleanup : M unit) : M A :=
  λ self, let '(r, self') := m self in
          match cleanup self' with
          | (Ok _, self'') => (r, self'')
          | (Raise e, self'') => (Raise e, self'')
          end.

(** A [for] loop with a loop-carried local. *)
Fixpoint foldM {A B} (body : B → A → M B) (l : list A) (b : B) : M B :=
  match l with
  | [] => ret b
  | a :: l' => let! b' := body b a in foldM body l' b'
  end.

Definition for_each {A} (l : list A) (body : A → M unit) : M unit :=
  foldM (λ _ a, body a) l tt.

(** A [for] loop over a generator: the items it yields, then its exception. *)
Definition for_gen {A B} (g : generator A) (body : B → A → M B) (b : B) : M B :=
  let! b' := foldM body g.1 b in
  match g.2 with
  | Some e => raise e
  | None => ret b'
  end.

(** [d[k] = v] on a dict kept as an association list: an existing key keeps
    its place, a new key goes last. *)
Fixpoint dict_set {A} (k : string) (v : A) (d : list (string * A))
  : list (string * A) :=
  match d with
  | [] => [(k, v)]
  | (k', v') :: d' =>
      if decide (k = k') then (k, v) :: d' else (k', v') :: dict_set k v d'
  end.

(** [dict(g)] of a generator of pairs. *)
Definition dict {A} (g : generator (string * A)) : result (list (string * A)) :=
  match g.2 with
  | Some e => Raise e
  | None => Ok (foldl (λ d kv, dict_set kv.1 kv.2 d) [] g.1)
  end.

(** ** Concrete surroundings

    Stand-ins for Python's text methods, the libraries and the storage, used
    where a property is exercised on concrete input. Each agrees with what
    it stands for on the texts it meets in this file: ASCII text, and the
    one-character text U+19DA, which [isdigit] accepts and [int] refuses. *)

Module Standin.

(** [c.isspace()] on the ASCII range: TAB, LF, VT, FF, CR, FS, GS, RS, US
    and the space. *)
Definition isspace_char (c : ascii) : bool :=
  let n := nat_of_ascii c in
  ((9 <=? n)%nat && (n <=? 13)%nat) || ((28 <=? n)%nat && (n <=? 32)%nat).

Definition isdigit_char (c : ascii) : bool :=
  let n := nat_of_ascii c in (48 <=? n)%nat && (n <=? 57)%nat.

Definition is_empty (s : string) : bool :=
  match s with EmptyString => true | String _ _ => false end.

Fixpoint lstrip (s : string) : string :=
  match s with
  | EmptyString => EmptyString
  | String c s' => if isspace_char c then lstrip s' else s
  end.

Fixpoint rstrip (s : string) : string :=
  match s with
  | EmptyString => EmptyString
  | String c s' =>
      let r := rstrip s' in
      if isspace_char c && is_empty r then EmptyString else String c r
  end.

(** [s.strip()] of an ASCII text. *)
Definition strip (s : string) : string := rstrip (lstrip s).

Fixpoint all_ascii_digits (s : string) : bool :=
  match s with
  | EmptyString => true
  | String c s' => isdigit_char c && all_ascii_digits s'
  end.

(** Every character is an ASCII digit or U+19DA (in UTF-8 the bytes 225,
    167, 154). *)
Fixpoint all_digits (s : string) : bool :=
  match s with
  | EmptyString => true
  | String c s' =>
      if isdigit_char c then all_digits s'
      else match s with
           | String "225" (String "167" (String "154" s'')) => all_digits s''
           | _ => false
           end
  end.

(** [s.isdigit()] *)
Definition isdigit (s : string) : bool := negb (is_empty s) && all_digits s.

Definition digit_value (c : ascii) : Z := Z.of_nat (nat_of_ascii c) - 48.

Fixpoint int_digits (acc : Z) (s : string) : Z :=
  match s with
  | EmptyString => acc
  | String c s' => int_digits (10 * acc + digit_value c) s'
  end.

(** [int(s)]: the number for ASCII decimal digits, at most 4300 of them
    (CPython's limit since 3.11); otherwise the [ValueError]. *)
Definition int_ (s : string) : option Z :=
  if negb (is_empty s) && all_ascii_digits s
     && bool_decide (String.length s ≤ 4300)%nat
  then Some (int_digits 0 s) else None.

(** [float(s)] for the texts ["1.5"] and ["0.5"], by the bits of the
    double. Any other text is answered as one that [float] refuses, so the
    stand-in is to be used on these two texts only. *)
Definition float_ (s : string) : option N :=
  if decide (s = "1.5") then Some 4609434218613702656%N
  else if decide (s = "0.5") then Some 4602678819172646912%N
  else None.

(** NFKD leaves ASCII text, and U+19DA, as they are. *)
Definition nfkd (s : string) : string := s.

(** A date parser that knows one date, 2 January 2020 (day 737426), and one
    text whose year is out of range; it raises its [ValueError] on
    everything else, as [dateutil] does on the other texts it meets in this
    file ("hello", "young", "x", "y"). *)
Definition parse (s : string) : parsed :=
  if decide (s = "2020-01-02") then Parsed 737426 0
  else if decide (s = "1000000000000000000000000000000 AD")
       then ParserOverflowError
       else ParserValueError.

Definition isoformat (x : value) : string :=
  match x with
  | VDatetime 737426 0 => "2020-01-02T00:00:00"
  | _ => "0001-01-01T00:00:00"
  end.

Definition str_value (x : value) : string :=
  match x with
  | VStr s => s
  | _ => "?"
  end.

End Standin.

(** [row.get(k)] *)
Fixpoint get (k : string) (row : record) : option value :=
  match row with
  | [] => None
  | (k', v) :: row' => if decide (k = k') then Some v else get k row'
  end.

(** Two rows agree on the columns [keys]. *)
Definition same_keys (keys : list string) (row r : record) : bool :=
  forallb (λ k, bool_decide (get k row = get k r)) keys.

(** [r.update(row)] *)
Definition merge (row r : record) : record :=
  foldl (λ d kv, dict_set kv.1 kv.2 d) r row.

(** A healthy in-memory table: reads succeed, rows are appended, matched on
    key columns, filtered out on delete; no call fails. *)
Definition mem_table : Table :=
  {| Table_all_ok := λ _, true;
     Table_find_ok := λ _ _, true;
     Table_insert := λ row rows,
       (Ok (VInt (Z.of_nat (S (length rows)))), rows ++ [row]);
     Table_insert_ignore := λ row keys rows,
       if existsb (same_keys keys row) rows
       then (Ok (VBool false), rows)
       else (Ok (VInt (Z.of_nat (S (length rows)))), rows ++ [row]);
     Table_insert_many := λ new rows, (Ok VNone, rows ++ new);
     Table_update := λ row keys rows,
       (Ok (VBool (existsb (same_keys keys row) rows)),
        map (λ r, if same_keys keys row r then merge row r else r) rows);
     Table_upsert := λ row keys rows,
       if existsb (same_keys keys row) rows
       then (Ok (VBool true),
             map (λ r, if same_keys keys row r then merge row r else r) rows)
       else (Ok (VInt (Z.of_nat (S (length rows)))), rows ++ [row]);
     Table_delete := λ filters rows,
       (Ok (VBool (existsb filters rows)),
        filter (λ r, filters r = false) rows) |}.

(** A table whose storage refuses writes: reads succeed, every write raises
    and changes nothing. *)
Definition down_table : Table :=
  {| Table_all_ok := λ _, true;
     Table_find_ok := λ _ _, true;
     Table_insert := λ _ rows, (Raise StorageError, rows);
     Table_insert_ignore := λ _ _ rows, (Raise StorageError, rows);
     Table_insert_many := λ _ rows, (Raise StorageError, rows);
     Table_update := λ _ _ rows, (Raise StorageError, rows);
     Table_upsert := λ _ _ rows, (Raise StorageError, rows);
     Table_delete := λ _ rows, (Raise StorageError, rows) |}.

(** A table whose storage cannot be reached: reads raise as well. *)
Definition offline_table : Table :=
  {| Table_all_ok := λ _, false;
     Table_find_ok := λ _ _, false;
     Table_insert := λ _ rows, (Raise StorageError, rows);
     Table_insert_ignore := λ _ _ rows, (Raise StorageError, rows);
     Table_insert_many := λ _ rows, (Raise StorageError, rows);
     Table_update := λ _ _ rows, (Raise StorageError, rows);
     Table_upsert := λ _ _ rows, (Raise StorageError, rows);
     Table_delete := λ _ rows, (Raise StorageError, rows) |}.

(** The filter [column == x] on stored rows. *)
Definition column_is (k : string) (x : value) (r : record) : bool :=
  bool_decide (get k r = Some x).

(** ** The value normalizer ([util.py]) *)

Section Engine.

(** What the code takes from outside this repository. From Python:
    [s.strip()]; [s.isdigit()]; [int(s)] and [float(s)] of a text, which
    give the number (a float by its bits) or raise [ValueError] ([None]);
    [unicodedata.normalize("NFKD", s)]. From [dateutil]: the date parser.
    [isoformat()] of a date or datetime; the two process-wide flags as
    read, [bool(int(os.getenv(name, '1')))], the variable's text being one
    that [int] accepts; [str(x)] of a scalar; and the base class [Table] of
    the wrapper. *)
Variable str_strip : string → string.
Variable unicodedata_normalize_NFKD : string → string.
Variable str_isdigit : string → bool.
Variable int_ : string → option Z.
Variable float_ : string → option N.
Variable dateutil_parser_parse : string → parsed.
Variable isoformat : value → string.
Variable TINYDB_DATETIME : bool.
Variable XSCHEMA_SANITIZE : bool.
Variable str_value : value → string.
Variable base : Table.

(** Three facts of Python's text methods that properties below rest on:
    neither the empty text nor a lone hyphen is made of digits, and a
    trimmed text has nothing left to trim. *)
Hypothesis isdigit_empty : str_isdigit "" = false.
Hypothesis isdigit_hyphen : str_isdigit "-" = false.
Hypothesis strip_strip : ∀ s, str_strip (str_strip s) = str_strip s.

Definition normalize_chars (s : string) : string :=
  unicodedata_normalize_NFKD s.

(** The nested [_yield_switch] of [parse_record]. *)
Definition _yield_switch (yield_ : yield_mode) (x : value) : result pyobj :=
  match yield_ with
  | YType => Ok (OType (type_of x))
  | YRecord =>
      if is_date x then Ok (OValue (VStr (isoformat x))) else Ok (OValue x)
  | YOther => Raise ValueError
  end.

(** [jsonify] is a generator; nothing in it raises. *)
Definition jsonify (d : record) : generator (string * value) :=
  (map (λ '(k, v), match v with
                   | VDatetime _ _ => (k, VStr (isoformat v))
                   | _ => (k, v)
                   end) d,
   None).

(** The chain of tests applied to a [str] field, lines 34 to 45: the value
    the field goes on with, [None] where the loop [continue]s, or the
    exception that leaves the loop. [int] and [float] are called outside any
    [try]; of what the date parser raises only [ValueError] is caught. *)
Definition reinterpret (v : string) : result (option value) :=
  let v := normalize_chars (str_strip v) in
  if str_isdigit v then
    match int_ v with
    | Some n => Ok (Some (VInt n))
    | None => Raise ValueError
    end
  else if PyStr.contains "." v && str_isdigit (PyStr.remove_first "." v) then
    match float_ v with
    | Some x => Ok (Some (VFloat x))
    | None => Raise ValueError
    end
  else if bool_decide (v = "" ∨ v = "-") then Ok None
  else match dateutil_parser_parse v with
       | Parsed day usec => Ok (Some (VDatetime day usec))
       | ParserValueError => Ok (Some (VStr v))
       | ParserOverflowError => Raise OverflowError
       end.

(** One turn of the loop of [parse_record], up to the [yield]: [None] when
    the field is skipped. *)
Definition normalize_field (v : value) : result (option value) :=
  let v' :=
    if TINYDB_DATETIME
    then match v with VStr s => reinterpret s | _ => Ok (Some v) end
    else Ok (Some v) in
  match v' with
  | Raise e => Raise e
  | Ok None => Ok None
  | Ok (Some v) => Ok (Some (if is_date v then combine_min v else v))
  end.

(** The generator ends at the first field that raises; the fields before
    it have been yielded. *)
Fixpoint parse_record (record : record) (yield_ : yield_mode)
  : generator (string * pyobj) :=
  match record with
  | [] => ([], None)
  | (k, v) :: rest =>
      match normalize_field v with
      | Raise e => ([], Some e)
      | Ok None => parse_record rest yield_
      | Ok (Some v) =>
          match _yield_switch yield_ v with
          | Raise e => ([], Some e)
          | Ok x => let '(items, stop) := parse_record rest yield_ in
                    ((k, x) :: items, stop)
          end
      end
  end.

(** ** The schema validation engine ([table.py]) *)

(** Truth value of an entry of [type_]: a class is true, a list is true
    unless empty. *)
Definition truthy (e : type_entry) : bool :=
  match e with
  | Single _ => true
  | Many ts => negb (bool_decide (ts = []))
  end.

(** [v is expected_type] *)
Definition is_ (v : pyobj) (e : type_entry) : bool :=
  match v, e with
  | OType t, Single t' => bool_decide (t = t')
  | _, _ => false
  end.

(** [v in (int, float)] *)
Definition in_int_float (v : pyobj) : bool :=
  bool_decide (v = OType TInt ∨ v = OType TFloat).

(** Lines 42 to 47 of [refresh]: the class the field counts as, or the
    type conflict. *)
Definition check_type (cm : ConstraintMapping) (k : string) (v : pyobj)
  : result pyobj :=
  match type_ cm !! k with
  | Some expected_type =>
      if truthy expected_type && negb (is_ v expected_type) then
        if is_ (OType TStr) expected_type && in_int_float v
        then Ok (OType TStr)
        else Raise (NonUniformTypeException v expected_type)
      else Ok v
  | None => Ok v
  end.

(** Lines 50 to 57: [v] is appended to the column's list in the report
    unless it is there. *)
Definition report_type (output_mapping : ConstraintMapping) (k : string)
  (v : pyobj) : ConstraintMapping :=
  let type_list :=
    match type_ output_mapping !! k with
    | None => []
    | Some (Single t) => [OType t]
    | Some (Many ts) => ts
    end in
  let type_list :=
    if bool_decide (v ∈@{list pyobj} type_list) then type_list else type_list ++ [v] in
  {| type_ := <[k := Many type_list]> (type_ output_mapping);
     not_null := not_null output_mapping;
     preexisting := preexisting output_mapping |}.

(** Lines 66 to 68: a list of one class becomes the class. The scan only
    appends what [parse_record] yields in ['type'] mode, so a list never
    holds a scalar. *)
Definition collapse (e : type_entry) : type_entry :=
  match e with
  | Many [OType t] => Single t
  | _ => e
  end.

Definition collapse_mapping (output_mapping : ConstraintMapping)
  : ConstraintMapping :=
  {| type_ := collapse <$> type_ output_mapping;
     not_null := not_null output_mapping;
     preexisting := preexisting output_mapping |}.

(** [self.all()], and [self.find] with its filter: the rows, or the error
    of the storage. *)
Definition all : M (list record) :=
  record_call CallAll ;;;
  let! stored := gets rows in
  if Table_all_ok base stored then ret stored else raise StorageError.

Definition find (filters : record → bool) : M (list record) :=
  record_call CallFind ;;;
  let! stored := gets rows in
  if Table_find_ok base filters stored
  then ret (filter (λ r, filters r = true) stored)
  else raise StorageError.

(** The body of the outer loop of [refresh], lines 41 to 63. The report,
    when there is one, is an object and so counts as true in
    [if output_mapping]. *)
Definition refresh_record (output_mapping : option ConstraintMapping)
  (record : record) : M (option ConstraintMapping) :=
  let! output_mapping :=
    for_gen (parse_record record YType)
      (λ output_mapping '(k, v),
         let! cm := gets constraint_mapping in
         let! v := lift (check_type cm k v) in
         ret (match output_mapping with
              | Some om => Some (report_type om k v)
              | None => None
              end))
      output_mapping in
  let! record := lift (dict (parse_record record YRecord)) in
  let! cm := gets constraint_mapping in
  let is_null := not_null cm ∖ list_to_set record.*1 in
  if bool_decide (0 < size is_null)%nat
  then raise (NotNullException is_null)
  else ret output_mapping.

Definition refresh (output : bool) : M (option (gmap string Constraint)) :=
  record_call CallRefresh ;;;
  let! cm := gets constraint_mapping in
  let output_mapping := if output then Some cm else None in
  let! records := all in
  let! output_mapping := foldM refresh_record records output_mapping in
  match output_mapping with
  | Some om => ret (Some (ConstraintMapping_view (collapse_mapping om)))
  | None => ret None
  end.

(** [preexisting[k].add(v)] and [preexisting[k].remove(v)] *)
Definition seen_add (k : string) (v : pyobj) (cm : ConstraintMapping)
  : ConstraintMapping :=
  {| type_ := type_ cm;
     not_null := not_null cm;
     preexisting := alter (λ s, {[v]} ∪ s) k (preexisting cm) |}.

Definition seen_remove (k : string) (v : pyobj) (cm : ConstraintMapping)
  : ConstraintMapping :=
  {| type_ := type_ cm;
     not_null := not_null cm;
     preexisting := alter (λ s, s ∖ {[v]}) k (preexisting cm) |}.

Definition _update_uniqueness (record_dict : record) : M unit :=
  for_gen (parse_record record_dict YType)
    (λ _ '(k, v),
       let! cm := gets constraint_mapping in
       match preexisting cm !! k with
       | Some seen =>
           if bool_decide (v ∈ seen)
           then raise (NotUniqueException v k)
           else set_mapping (seen_add k v cm)
       | None => ret tt
       end)
    tt.

Definition _remove_uniqueness (record_dict : record) : M unit :=
  for_gen (parse_record record_dict YType)
    (λ _ '(k, v),
       let! cm := gets constraint_mapping in
       match preexisting cm !! k with
       | Some seen =>
           if bool_decide (v ∈ seen)
           then set_mapping (seen_remove k v cm)
           else ret tt
       | None => ret tt
       end)
    tt.

(** [super(XSchemaTable, self).method(...)] *)
Definition super (c : call)
  (method : list record → result value * list record) : M value :=
  record_call c ;;;
  λ self, let '(r, rows') := method (rows self) in
          (r, {| rows := rows';
                 constraint_mapping := constraint_mapping self;
                 calls := calls self |}).

Definition insert (row : record) : M value :=
  _update_uniqueness row ;;;
  super (CallInsert row) (Table_insert base row).

Definition insert_ignore (row : record) (keys : list string) : M value :=
  _update_uniqueness row ;;;
  super (CallInsertIgnore row) (Table_insert_ignore base row keys).

Definition insert_many (rows : list record) : M value :=
  for_each rows _update_uniqueness ;;;
  super (CallInsertMany rows) (Table_insert_many base rows).

Definition update (row : record) (keys : list string) : M value :=
  _update_uniqueness row ;;;
  super (CallUpdate row) (Table_update base row keys).

Definition upsert (row : record) (keys : list string) : M value :=
  _update_uniqueness row ;;;
  super (CallUpsert row) (Table_upsert base row keys).

Definition delete (filters : record → bool) : M value :=
  let! found := find filters in
  for_each found _remove_uniqueness ;;;
  try_finally (super CallDelete (Table_delete base filters))
              (refresh false ;;; ret tt).

Definition update_schema (schema_dict : list (string * declaration)) : M unit :=
  let! cm := gets constraint_mapping in
  set_mapping (ConstraintMapping_update schema_dict cm).

(** [refresh(output=True)] always returns the snapshot; the empty map
    stands for the [None] that only [refresh(output=False)] returns. *)
Definition get_schema (refresh_ : bool) : M (gmap string Constraint) :=
  if refresh_ then
    let! snapshot := refresh true in
    match snapshot with
    | Some snapshot => ret snapshot
    | None => ret ∅
    end
  else
    let! cm := gets constraint_mapping in
    ret (ConstraintMapping_view cm).

(** [str(v)] of what a record of classes holds. *)
Definition str_ (v : pyobj) : string :=
  match v with
  | OType t => str_of_type t
  | OValue x => str_value x
  end.

(** A dict from column to class, as [update_schema] receives it from
    [_records]: each class is a bare declaration. *)
Definition as_schema_dict (record_schema : list (string * pyobj))
  : list (string * declaration) :=
  omap (λ '(k, v), match v with
                   | OType t => Some (k, DeclType t)
                   | OValue _ => None
                   end) record_schema.

(** One turn of the loop of the nested generator [_records], lines 159 to
    178: the record it yields. *)
Definition _records_step (record : record) : M (list (string * pyobj)) :=
  let! record_schema := lift (dict (parse_record record YType)) in
  let! num_to_str :=
    foldM (λ (num_to_str : gset string) '(k, v),
             let! cm := gets constraint_mapping in
             let! num_to_str :=
               match type_ cm !! k with
               | Some expected_type =>
                   if truthy expected_type && negb (is_ v expected_type) then
                     if is_ (OType TStr) expected_type && in_int_float v
                     then ret ({[k]} ∪ num_to_str)
                     else raise (NonUniformTypeException v expected_type)
                   else ret num_to_str
               | None => ret num_to_str
               end in
             update_schema (as_schema_dict record_schema) ;;;
             ret num_to_str)
          record_schema ∅ in
  let! record := lift (dict (parse_record record YType)) in
  ret (map (λ '(k, v), if bool_decide (k ∈ num_to_str)
                       then (k, OValue (VStr (str_ v)))
                       else (k, v)) record).

(** [isinstance(c.type_, list)] *)
Definition is_list (e : option type_entry) : bool :=
  match e with Some (Many _) => true | _ => false end.

(** A batch returned as it came: every field keeps its scalar. *)
Definition unmodified (records : list record) : list (list (string * pyobj)) :=
  map (map (λ '(k, v), (k, OValue v))) records.

Definition _sanitize_multiple (records : list record)
  : M (list (list (string * pyobj))) :=
  if XSCHEMA_SANITIZE then
    refresh false ;;;
    let! snapshot := get_schema false in
    if forallb (λ kc, negb (is_list (c_type kc.2))) (map_to_list snapshot)
    then foldM (λ out record,
                  let! record := _records_step record in
                  ret (out ++ [record]))
               records []
    else raise AssertionError
  else ret (unmodified records).

Definition _sanitize_one (record : record) : M (list (string * pyobj)) :=
  let! sanitized := _sanitize_multiple [record] in
  match sanitized with
  | first :: _ => ret first
  | [] => raise IndexError
  end.

(** The [schema] property: its getter and its setter. *)
Definition schema : M (gmap string Constraint) := get_schema true.

Definition set_schema (schema_dict : list (string * declaration)) : M unit :=
  set_mapping ConstraintMapping_new ;;;
  update_schema schema_dict.

(** [__init__] over the rows already in storage. *)
Definition init_xschema : M unit := refresh false ;;; ret tt.

Definition XSchemaTable_init (stored : list record)
  : result unit * XSchemaTable :=
  init_xschema {| rows := stored;
                  constraint_mapping := ConstraintMapping_new;
                  calls := [] |}.
(** ** Notions the properties are stated with *)

(** A field put in front of what a generator yields. *)
Definition yields {A} (x : A) (g : generator A) : generator A := (x :: g.1, g.2).

(** A loop that only computes: the fold of a step that may raise. *)
Fixpoint fold_result {A B} (step : B → A → result B) (l : list A) (b : B)
  : result B :=
  match l with
  | [] => Ok b
  | a :: l' => match step b a with
               | Ok b' => fold_result step l' b'
               | Raise e => Raise e
               end
  end.

(** The outcome is a value, not an exception. *)
Definition is_ok {A} (r : result A) : bool :=
  match r with Ok _ => true | Raise _ => false end.

(** An outcome from the exception a loop ended with, if any. *)
Definition outcome (stop : option exn) : result unit :=
  match stop with Some e => Raise e | None => Ok tt end.

(** The record parses: the generator over it runs to its end. *)
Definition parses (r : record) : bool :=
  bool_decide ((parse_record r YType).2 = None).

(** The field raises a type conflict against the mapping. *)
Definition conflicts (cm : ConstraintMapping) (kv : string * pyobj) : bool :=
  match check_type cm kv.1 kv.2 with
  | Ok _ => false
  | Raise _ => true
  end.

(** The type loop over the record runs to its end: the record parses and
    no field raises a type conflict. *)
Definition type_pass (cm : ConstraintMapping) (r : record) : bool :=
  parses r && forallb (λ kv, negb (conflicts cm kv)) (parse_record r YType).1.

(** The required columns that the rendered view of the record lacks. *)
Definition missing (cm : ConstraintMapping) (r : record) : gset string :=
  not_null cm ∖ list_to_set (parse_record r YRecord).1.*1.

(** The record goes through both checks of the scan. *)
Definition record_pass (cm : ConstraintMapping) (r : record) : bool :=
  type_pass cm r && bool_decide (missing cm r = ∅).

(** The scan of one field and of one record, as functions of the mapping. *)
Definition scan_field (cm : ConstraintMapping)
  (output_mapping : option ConstraintMapping) (kv : string * pyobj)
  : result (option ConstraintMapping) :=
  match check_type cm kv.1 kv.2 with
  | Ok v => Ok (match output_mapping with
                | Some om => Some (report_type om kv.1 v)
                | None => None
                end)
  | Raise e => Raise e
  end.

Definition scan_record (cm : ConstraintMapping)
  (output_mapping : option ConstraintMapping) (r : record)
  : result (option ConstraintMapping) :=
  match fold_result (scan_field cm) (parse_record r YType).1 output_mapping with
  | Ok output_mapping =>
      match (parse_record r YType).2 with
      | Some e => Raise e
      | None =>
          if bool_decide (0 < size (missing cm r))%nat
          then Raise (NotNullException (missing cm r))
          else Ok output_mapping
      end
  | Raise e => Raise e
  end.

(** The state a refresh leaves: two more calls, nothing else. *)
Definition after_refresh (self : XSchemaTable) : XSchemaTable :=
  {| rows := rows self;
     constraint_mapping := constraint_mapping self;
     calls := (calls self ++ [CallRefresh]) ++ [CallAll] |}.

(** The table with another mapping. *)
Definition with_mapping (self : XSchemaTable) (cm : ConstraintMapping)
  : XSchemaTable :=
  {| rows := rows self; constraint_mapping := cm; calls := calls self |}.

(** The loop of [_update_uniqueness] on the mapping alone, over the fields
    the generator yields: the mapping it leaves, and the exception it stops
    with if it does. *)
Fixpoint seen_after_update (cm : ConstraintMapping)
  (items : list (string * pyobj)) : ConstraintMapping * option exn :=
  match items with
  | [] => (cm, None)
  | (k, v) :: items' =>
      match preexisting cm !! k with
      | Some seen =>
          if bool_decide (v ∈ seen)
          then (cm, Some (NotUniqueException v k))
          else seen_after_update (seen_add k v cm) items'
      | None => seen_after_update cm items'
      end
  end.

(** [_update_uniqueness] on the mapping alone: the loop over the yielded
    fields, then the exception the generator ends with. *)
Definition uniqueness_check (cm : ConstraintMapping) (row : record)
  : ConstraintMapping * option exn :=
  let after := seen_after_update cm (parse_record row YType).1 in
  (after.1, match after.2 with
            | Some e => Some e
            | None => (parse_record row YType).2
            end).

(** The checking loop of [insert_many] on the mapping alone. *)
Fixpoint seen_after_batch (cm : ConstraintMapping) (rs : list record)
  : ConstraintMapping * option exn :=
  match rs with
  | [] => (cm, None)
  | r :: rs' =>
      let after := uniqueness_check cm r in
      match after.2 with
      | Some e => (after.1, Some e)
      | None => seen_after_batch after.1 rs'
      end
  end.

(** The loop of [_remove_uniqueness] on the mapping alone, over the fields
    the generator yields. *)
Fixpoint seen_after_remove (cm : ConstraintMapping)
  (items : list (string * pyobj)) : ConstraintMapping :=
  match items with
  | [] => cm
  | (k, v) :: items' =>
      match preexisting cm !! k with
      | Some seen =>
          if bool_decide (v ∈ seen)
          then seen_after_remove (seen_remove k v cm) items'
          else seen_after_remove cm items'
      | None => seen_after_remove cm items'
      end
  end.

(** The removal loop of [delete] on the mapping alone: it stops at the first
    found record that does not parse, the fields yielded before that having
    been processed. *)
Fixpoint removal_loop (cm : ConstraintMapping) (found : list record)
  : ConstraintMapping * option exn :=
  match found with
  | [] => (cm, None)
  | r :: found' =>
      let cm' := seen_after_remove cm (parse_record r YType).1 in
      match (parse_record r YType).2 with
      | Some e => (cm', Some e)
      | None => removal_loop cm' found'
      end
  end.

(** The mapping after the removal loop of [delete] has gone over all the
    found records. *)
Definition seen_after_delete (cm : ConstraintMapping) (found : list record)
  : ConstraintMapping :=
  foldl (λ cm r, seen_after_remove cm (parse_record r YType).1) cm found.

(** The table after the search of [delete], and after its removal loop and
    the delegated removal. *)
Definition searched (self : XSchemaTable) : XSchemaTable :=
  {| rows := rows self;
     constraint_mapping := constraint_mapping self;
     calls := calls self ++ [CallFind] |}.


(** From [cm] to [cm'] the classes and the required columns stay, the same
    columns are tracked, and every seen-set keeps what it had. *)
Definition seen_grows (cm cm' : ConstraintMapping) : Prop :=
  type_ cm' = type_ cm
  ∧ not_null cm' = not_null cm
  ∧ dom (preexisting cm') = dom (preexisting cm)
  ∧ ∀ k seen seen',
      preexisting cm !! k = Some seen → preexisting cm' !! k = Some seen' →
      seen ⊆ seen'.


(** The classified values a column holds in storage: for each stored field
    of the column that is kept, the value it is read as. *)
Definition column_values (stored : list record) (k : string) : gset pyobj :=
  list_to_set
    (stored ≫= λ r, omap (λ kv : string * value,
                             if decide (kv.1 = k)
                             then match normalize_field kv.2 with
                                  | Ok (Some x) => Some (OValue x)
                                  | _ => None
                                  end
                             else None) r).

(** The invariant the spec gives for the seen-sets: each equals the set of
    classified values its column holds in storage. *)
Definition seen_in_sync (self : XSchemaTable) : Prop :=
  ∀ k seen, preexisting (constraint_mapping self) !! k = Some seen →
            seen = column_values (rows self) k.

(** The report [om] built so far shows the mapping [cm]: same required
    columns, same seen-sets, and each column's list, once collapsed, is the
    column's class in [cm]. *)
Definition reports (cm om : ConstraintMapping) : Prop :=
  not_null om = not_null cm
  ∧ preexisting om = preexisting cm
  ∧ ∀ k, collapse <$> (type_ om !! k) = type_ cm !! k.

(** ** Properties of the normalizer *)

Lemma parse_record_cons_skip k v rest yield_ :
  normalize_field v = Ok None →
  parse_record ((k, v) :: rest) yield_ = parse_record rest yield_.
Proof. intros H. simpl. by rewrite H. Qed.

Lemma parse_record_cons_type k v v' rest :
  normalize_field v = Ok (Some v') →
  parse_record ((k, v) :: rest) YType
  = yields (k, OType (type_of v')) (parse_record rest YType).
Proof.
  intros H. simpl. rewrite H. unfold yields.
  by destruct (parse_record rest YType).
Qed.

Lemma parse_record_cons_raise k v e rest yield_ :
  normalize_field v = Raise e →
  parse_record ((k, v) :: rest) yield_ = ([], Some e).
Proof. intros H. simpl. by rewrite H. Qed.

(** What leaves the loop over a field is a [ValueError] or an
    [OverflowError], and only a text with the flag on can raise it. *)
Lemma reinterpret_exn s e :
  reinterpret s = Raise e → e = ValueError ∨ e = OverflowError.
Proof.
  unfold reinterpret.
  repeat (case_match; try done); intros [= <-]; auto.
Qed.

Lemma normalize_field_exn v e :
  normalize_field v = Raise e →
  (e = ValueError ∨ e = OverflowError)
  ∧ TINYDB_DATETIME = true ∧ ∃ s, v = VStr s.
Proof.
  unfold normalize_field. destruct TINYDB_DATETIME; [|done].
  destruct v as [| | | |s| |]; try done.
  destruct (reinterpret s) as [[x|]|e'] eqn:Hr; try done.
  intros [= <-]. split; [by eapply reinterpret_exn|]. eauto.
Qed.

Lemma parse_record_stop_exn (r : record) yield_ e :
  (parse_record r yield_).2 = Some e → e = ValueError ∨ e = OverflowError.
Proof.
  induction r as [|[k v] r IH]; simpl; [done|].
  destruct (normalize_field v) as [[x|]|e'] eqn:Hv.
  - destruct (_yield_switch yield_ x) as [o|e'] eqn:Hy.
    + destruct (parse_record r yield_). simpl in *. done.
    + simpl. intros [= <-]. left. destruct yield_; simpl in Hy; try done.
      * by destruct (is_date x).
      * by injection Hy.
  - done.
  - simpl. intros [= <-]. by apply normalize_field_exn in Hv as [? _].
Qed.

(** Both modes end the same way. *)
Lemma parse_record_stop_agree (r : record) :
  (parse_record r YRecord).2 = (parse_record r YType).2.
Proof.
  induction r as [|[k v] r IH]; simpl; [done|].
  destruct (normalize_field v) as [[x|]|e]; [|done..].
  destruct (is_date x), (parse_record r YRecord), (parse_record r YType);
    simpl in *; done.
Qed.

(** Both modes keep and skip the same fields. *)
Lemma parse_record_same_keys (r : record) :
  (parse_record r YRecord).1.*1 = (parse_record r YType).1.*1.
Proof.
  induction r as [|[k v] r IH]; simpl; [done|].
  destruct (normalize_field v) as [[x|]|e]; [|done..].
  destruct (is_date x), (parse_record r YRecord), (parse_record r YType);
    simpl in *; by f_equal.
Qed.

(** What ['type'] mode yields is a class. *)
Lemma parse_record_type_class (r : record) k v :
  (k, v) ∈ (parse_record r YType).1 → ∃ t, v = OType t.
Proof.
  induction r as [|[k' x] r IH]; simpl; [by intros ?%elem_of_nil|].
  destruct (normalize_field x) as [[x'|]|e]; [|done|by intros ?%elem_of_nil].
  destruct (parse_record r YType) as [items stop]; simpl in *.
  intros [[= -> ->]|Hin]%elem_of_cons; eauto.
Qed.

(** The keys yielded are picked from the record's keys, in order. *)
Lemma parse_record_keys_sublist (r : record) yield_ :
  sublist (parse_record r yield_).1.*1 r.*1.
Proof.
  induction r as [|[k v] r IH]; simpl; [constructor|].
  destruct (normalize_field v) as [[x|]|e].
  - destruct (_yield_switch yield_ x); simpl.
    + destruct (parse_record r yield_). simpl in *. by constructor.
    + apply sublist_nil_l.
  - by constructor.
  - apply sublist_nil_l.
Qed.

Lemma parse_record_keys_NoDup (r : record) yield_ :
  NoDup r.*1 → NoDup (parse_record r yield_).1.*1.
Proof. intros H. by eapply sublist_NoDup; [|apply parse_record_keys_sublist]. Qed.

Lemma parse_record_app (ra rb : record) yield_ :
  (parse_record ra yield_).2 = None →
  parse_record (ra ++ rb) yield_
  = ((parse_record ra yield_).1 ++ (parse_record rb yield_).1,
     (parse_record rb yield_).2).
Proof.
  induction ra as [|[k v] ra IH]; simpl.
  { intros _. by destruct (parse_record rb yield_). }
  destruct (normalize_field v) as [[x|]|e]; [|done..].
  destruct (_yield_switch yield_ x); simpl; [|done].
  destruct (parse_record ra yield_) as [ia sa]. simpl in *.
  intros ->. by rewrite IH.
Qed.

Lemma parse_record_skip_field k s rest yield_ :
  TINYDB_DATETIME = true →
  normalize_chars (str_strip s) = "" ∨ normalize_chars (str_strip s) = "-" →
  parse_record ((k, VStr s) :: rest) yield_ = parse_record rest yield_.
Proof.
  intros Hflag Hv. apply parse_record_cons_skip.
  unfold normalize_field. rewrite Hflag. unfold reinterpret.
  destruct Hv as [-> | ->].
  - by rewrite isdigit_empty.
  - by rewrite isdigit_hyphen.
Qed.

(** ** Properties of the loops *)

Lemma foldM_app {A B} (body : B → A → M B) (l1 l2 : list A) (b : B) self :
  foldM body (l1 ++ l2) b self
  = bind (foldM body l1 b) (λ b', foldM body l2 b') self.
Proof.
  revert b self. induction l1 as [|a l1 IH]; intros b self; simpl.
  - reflexivity.
  - unfold bind in *.
    destruct (body b a self) as [[b'|e] self']; [apply IH|done].
Qed.

(** A loop whose body leaves the state alone computes a fold. *)
Lemma foldM_pure {A B} (body : B → A → M B) (step : B → A → result B) self :
  (∀ b a, body b a self = (step b a, self)) →
  ∀ l b, foldM body l b self = (fold_result step l b, self).
Proof.
  intros Hbody l. induction l as [|a l IH]; intros b; simpl; [done|].
  unfold bind. rewrite Hbody. destruct (step b a); [apply IH|done].
Qed.

Lemma fold_result_app {A B} (step : B → A → result B) (l1 l2 : list A) b :
  fold_result step (l1 ++ l2) b
  = match fold_result step l1 b with
    | Ok b' => fold_result step l2 b'
    | Raise e => Raise e
    end.
Proof.
  revert b. induction l1 as [|a l1 IH]; intros b; simpl; [done|].
  destruct (step b a); [apply IH|done].
Qed.

(** ** Properties of the refresh scan *)

Lemma dict_set_keys {A} (k : string) (v : A) (d : list (string * A)) :
  list_to_set (C := gset string) (dict_set k v d).*1
  = {[k]} ∪ list_to_set d.*1.
Proof.
  induction d as [|[k' v'] d IH]; csimpl; [done|].
  destruct (decide (k = k')) as [->|]; csimpl.
  - by rewrite (assoc_L (∪)), (idemp_L (∪)).
  - rewrite IH, !(assoc_L (∪)). f_equal. apply (comm_L (∪)).
Qed.

Lemma dict_keys {A} (g : generator (string * A)) :
  g.2 = None →
  ∃ d, dict g = Ok d ∧ list_to_set (C := gset string) d.*1 = list_to_set g.1.*1.
Proof.
  destruct g as [items stop]; simpl. intros ->. unfold dict; simpl.
  eexists; split; [done|].
  assert (H : ∀ acc : list (string * A),
    list_to_set (C := gset string)
      (foldl (λ d kv, dict_set kv.1 kv.2 d) acc items).*1
    = list_to_set acc.*1 ∪ list_to_set items.*1).
  { induction items as [|[k v] items IH]; intros acc; csimpl.
    - by rewrite (right_id_L ∅ (∪)).
    - rewrite IH, dict_set_keys, !(assoc_L (∪)). f_equal. apply (comm_L (∪)). }
  rewrite H. csimpl. apply (left_id_L ∅ (∪)).
Qed.

Lemma refresh_record_pure output_mapping r self :
  refresh_record output_mapping r self
  = (scan_record (constraint_mapping self) output_mapping r, self).
Proof.
  unfold refresh_record, scan_record, for_gen, bind at 1 2.
  rewrite (foldM_pure _ (scan_field (constraint_mapping self)) self).
  2:{ intros om [k v]. unfold scan_field, bind, gets, lift, ret; simpl.
      by destruct (check_type (constraint_mapping self) k v). }
  destruct (fold_result _ _ _) as [om|e]; [|done].
  destruct (parse_record r YType).2 as [e|] eqn:Hstop; [done|].
  unfold ret at 1, bind at 1, lift.
  destruct (dict_keys (parse_record r YRecord)) as (d & -> & Hkeys).
  { by rewrite parse_record_stop_agree. }
  unfold bind, gets. unfold missing. rewrite <- Hkeys.
  by case_bool_decide.
Qed.

Lemma refresh_pure output self :
  refresh output self
  = (if Table_all_ok base (rows self) then
       match fold_result (scan_record (constraint_mapping self)) (rows self)
               (if output then Some (constraint_mapping self) else None) with
       | Ok (Some om) => Ok (Some (ConstraintMapping_view (collapse_mapping om)))
       | Ok None => Ok None
       | Raise e => Raise e
       end
     else Raise StorageError, after_refresh self).
Proof.
  unfold refresh, all, bind, record_call, gets; simpl.
  destruct (Table_all_ok base (rows self)); [|done].
  unfold ret at 1.
  rewrite (foldM_pure _ (scan_record (constraint_mapping self))
             (after_refresh self)).
  2:{ intros om r. apply (refresh_record_pure om r (after_refresh self)). }
  by destruct (fold_result _ _ _) as [[om|]|e].
Qed.

(** A refresh leaves the rows and the mapping as they were. *)
Lemma refresh_state output self :
  (refresh output self).2 = after_refresh self.
Proof. by rewrite refresh_pure. Qed.


Lemma check_type_raise cm k v e :
  check_type cm k v = Raise e →
  ∃ x, e = NonUniformTypeException v x ∧ type_ cm !! k = Some x
       ∧ is_ v x = false ∧ is_ (OType TStr) x && in_int_float v = false.
Proof.
  unfold check_type. destruct (type_ cm !! k) as [x|]; [|done].
  destruct (truthy x), (is_ v x) eqn:Hv; cbn [andb negb]; try done.
  destruct (is_ (OType TStr) x && in_int_float v) eqn:Hw; [done|].
  intros [= <-]. eauto.
Qed.

Lemma check_type_conflict cm k t e :
  type_ cm !! k = Some (Single e) → t ≠ e →
  ¬ (e = TStr ∧ (t = TInt ∨ t = TFloat)) →
  check_type cm k (OType t) = Raise (NonUniformTypeException (OType t) (Single e)).
Proof.
  intros Hk Hne Hw. unfold check_type. rewrite Hk. simpl.
  rewrite bool_decide_eq_false_2 by done. simpl.
  destruct (bool_decide (TStr = e)) eqn:He; simpl; [|done].
  apply bool_decide_eq_true in He as <-.
  unfold in_int_float. rewrite bool_decide_eq_false_2; [done|].
  intros [[= ->]|[= ->]]; naive_solver.
Qed.

Lemma check_type_widen cm k v :
  type_ cm !! k = Some (Single TStr) → v = OType TInt ∨ v = OType TFloat →
  check_type cm k v = Ok (OType TStr).
Proof. intros Hk [-> | ->]; unfold check_type; by rewrite Hk. Qed.

Lemma scan_fields_pass cm items om :
  forallb (λ kv, negb (conflicts cm kv)) items = true →
  ∃ om', fold_result (scan_field cm) items om = Ok om'.
Proof.
  revert om. induction items as [|[k v] items IH]; intros om; simpl; [eauto|].
  intros [Hkv Hrest]%andb_true_iff. unfold scan_field, conflicts in *. simpl in *.
  destruct (check_type cm k v); [apply IH, Hrest|done].
Qed.

Lemma scan_fields_conflict cm items om :
  forallb (λ kv, negb (conflicts cm kv)) items = false →
  ∃ v x, fold_result (scan_field cm) items om
         = Raise (NonUniformTypeException v x).
Proof.
  revert om. induction items as [|[k v] items IH]; intros om; simpl; [done|].
  unfold scan_field, conflicts at 1. simpl.
  destruct (check_type cm k v) as [v'|e] eqn:Hc; simpl.
  - apply IH.
  - intros _. apply check_type_raise in Hc as (x & -> & _). eauto.
Qed.

Lemma scan_fields_raise cm items om e :
  fold_result (scan_field cm) items om = Raise e →
  ∃ k v x, (k, v) ∈ items ∧ e = NonUniformTypeException v x
           ∧ type_ cm !! k = Some x ∧ is_ v x = false
           ∧ is_ (OType TStr) x && in_int_float v = false.
Proof.
  revert om. induction items as [|[k v] items IH]; intros om; simpl; [done|].
  unfold scan_field at 1. simpl.
  destruct (check_type cm k v) as [v'|e'] eqn:Hc.
  - intros (k' & v0 & x & Hin & H)%IH. exists k', v0, x.
    split; [by apply list_elem_of_further|done].
  - intros [= ->]. apply check_type_raise in Hc as (x & -> & H).
    exists k, v, x. split; [apply list_elem_of_here|done].
Qed.

Lemma scan_record_pass cm om r :
  record_pass cm r = true → ∃ om', scan_record cm om r = Ok om'.
Proof.
  intros [[Hp%bool_decide_eq_true Ht]%andb_true_iff Hm%bool_decide_eq_true]
    %andb_true_iff.
  unfold scan_record.
  destruct (scan_fields_pass cm _ om Ht) as [om' ->].
  rewrite Hp, Hm, size_empty. eauto.
Qed.

Lemma scan_rows_pass cm rs om :
  forallb (record_pass cm) rs = true →
  ∃ om', fold_result (scan_record cm) rs om = Ok om'.
Proof.
  revert om. induction rs as [|r rs IH]; intros om; simpl; [eauto|].
  intros [Hr Hrs]%andb_true_iff.
  destruct (scan_record_pass cm om r Hr) as [om' ->]. by apply IH.
Qed.

(** What the scan does at the first record that fails a check. *)
Lemma scan_rows_stop cm pre r post om :
  forallb (record_pass cm) pre = true →
  ∃ om', fold_result (scan_record cm) (pre ++ r :: post) om
         = match scan_record cm om' r with
           | Ok om'' => fold_result (scan_record cm) post om''
           | Raise e => Raise e
           end.
Proof.
  intros Hpre. destruct (scan_rows_pass cm pre om Hpre) as [om' Hom].
  exists om'. by rewrite fold_result_app, Hom.
Qed.

Lemma scan_rows_raise cm rs om e :
  fold_result (scan_record cm) rs om = Raise e →
  ∃ r om', r ∈ rs ∧ scan_record cm om' r = Raise e.
Proof.
  revert om. induction rs as [|r rs IH]; intros om; simpl; [done|].
  destruct (scan_record cm om r) as [om'|e'] eqn:Hr.
  - intros (r' & om'' & Hin & H)%IH. exists r', om''.
    split; [by apply list_elem_of_further|done].
  - intros [= ->]. exists r, om. split; [apply list_elem_of_here|done].
Qed.

Lemma refresh_raises output self e :
  (refresh output self).1 = Raise e →
  (Table_all_ok base (rows self) = false ∧ e = StorageError)
  ∨ ∃ r om, r ∈ rows self
            ∧ scan_record (constraint_mapping self) om r = Raise e.
Proof.
  rewrite refresh_pure; simpl.
  destruct (Table_all_ok base (rows self)); [|intros [= <-]; by left].
  destruct (fold_result _ _ _) as [[om|]|e'] eqn:Hf; [done..|].
  intros [= ->]. right. by apply scan_rows_raise in Hf.
Qed.

(** What a record makes the scan raise: a type conflict at a yielded field,
    the exception its parse ends with, or its missing required columns. *)
Lemma scan_record_raises cm om r e :
  scan_record cm om r = Raise e →
  (∃ k v x, (k, v) ∈ (parse_record r YType).1
            ∧ e = NonUniformTypeException v x
            ∧ type_ cm !! k = Some x ∧ is_ v x = false
            ∧ is_ (OType TStr) x && in_int_float v = false)
  ∨ ((parse_record r YType).2 = Some e
     ∧ (e = ValueError ∨ e = OverflowError))
  ∨ (e = NotNullException (missing cm r) ∧ missing cm r ≠ ∅).
Proof.
  unfold scan_record.
  destruct (fold_result _ _ _) as [om'|e'] eqn:Hf.
  - destruct (parse_record r YType).2 as [e'|] eqn:Hstop.
    + intros [= <-]. right. left. split; [done|].
      by eapply parse_record_stop_exn.
    + case_bool_decide as Hsize; [|done]. intros [= <-]. right. right.
      split; [done|]. intros He. rewrite He, size_empty in Hsize. lia.
  - intros [= <-]. left. by apply scan_fields_raise in Hf.
Qed.

(** C2. In a full refresh, a type conflict is raised only for a field whose
    class differs from the established one and is not an Integer or Float
    met in a String column; and, the stored rows being read, a record that
    the scan reaches and that has a field whose class differs from the
    established one, the pair not being (String, Integer) or (String,
    Float), makes refresh raise a type conflict. *)
Theorem refresh_type_conflict (self : XSchemaTable) (output : bool) :
  let cm := constraint_mapping self in
  (∀ v x, (refresh output self).1 = Raise (NonUniformTypeException v x) →
     ∃ r k, r ∈ rows self ∧ (k, v) ∈ (parse_record r YType).1
            ∧ type_ cm !! k = Some x
            ∧ (∀ t, v = OType t → x ≠ Single t)
            ∧ ¬ (x = Single TStr ∧ (v = OType TInt ∨ v = OType TFloat)))
  ∧ (∀ pre r post k t e,
       Table_all_ok base (rows self) = true →
       rows self = pre ++ r :: post →
       forallb (record_pass cm) pre = true →
       (k, OType t) ∈ (parse_record r YType).1 →
       type_ cm !! k = Some (Single e) →
       t ≠ e →
       ¬ (e = TStr ∧ (t = TInt ∨ t = TFloat)) →
       ∃ v x, (refresh output self).1 = Raise (NonUniformTypeException v x)).
Proof.
  intros cm. split.
  - intros v x [[_ [=]]|(r & om & Hr & Hs)]%refresh_raises. fold cm in Hs.
    apply scan_record_raises in Hs
      as [(k & v' & x' & Hin & [= <- <-] & Hk & Hv & Hw)
         |[[_ [[=]|[=]]]|[[=] _]]].
    exists r, k. repeat split; try done.
    + intros t -> ->. simpl in Hv. by rewrite bool_decide_eq_true_2 in Hv.
    + intros [-> Hvt]. simpl in Hw. unfold in_int_float in Hw.
      by rewrite bool_decide_eq_true_2 in Hw.
  - intros pre r post k t e Hall Hrows Hpre Hin Hk Hne Hw.
    rewrite refresh_pure; simpl. rewrite Hall, Hrows. fold cm.
    destruct (scan_rows_stop cm pre r post
                (if output then Some cm else None) Hpre) as [om' ->].
    unfold scan_record.
    destruct (scan_fields_conflict cm (parse_record r YType).1 om') as (v & x & ->).
    + apply not_true_iff_false. intros Hpass.
      rewrite forallb_forall in Hpass.
      specialize (Hpass (k, OType t)). unfold conflicts in Hpass. simpl in Hpass.
      rewrite (check_type_conflict cm k t e Hk Hne Hw) in Hpass.
      apply list_elem_of_In in Hin. by specialize (Hpass Hin).
    + eauto.
Qed.

(** A skipped field leaves its key out of what is yielded, unless another
    field of the record has the same key. *)
Lemma parse_record_keys_skip (ra rb : record) k s yield_ x :
  TINYDB_DATETIME = true →
  normalize_chars (str_strip s) = "" ∨ normalize_chars (str_strip s) = "-" →
  x ∈ (parse_record (ra ++ (k, VStr s) :: rb) yield_).1.*1 →
  x ∈ ra.*1 ∨ x ∈ rb.*1.
Proof.
  intros Hflag Hv. induction ra as [|[k0 v0] ra IH].
  - simpl app. rewrite (parse_record_skip_field k s rb yield_ Hflag Hv).
    intros Hx. right.
    by eapply elem_of_sublist; [|apply parse_record_keys_sublist].
  - simpl. destruct (normalize_field v0) as [[x'|]|e].
    + destruct (_yield_switch yield_ x'); simpl.
      * destruct (parse_record (ra ++ (k, VStr s) :: rb) yield_). simpl in *.
        intros [->|[?|?]%IH]%elem_of_cons; auto.
        -- left. apply elem_of_cons. by left.
        -- left. apply elem_of_cons. by right.
      * by intros ?%elem_of_nil.
    + intros [?|?]%IH; auto. left. apply elem_of_cons. by right.
    + by intros ?%elem_of_nil.
Qed.

(** C4, as the scan does it. The type pass of a record runs before its null
    check, so, the stored rows being read: a record that the scan reaches,
    that parses and whose fields raise no type conflict, and whose rendered
    view lacks one or more required columns, makes refresh raise a null
    violation naming all of them; and with the normalize-datetime flag on, a
    required column given as an empty string or a lone hyphen is among
    them. *)
Theorem refresh_null_violation (self : XSchemaTable) (output : bool) :
  let cm := constraint_mapping self in
  ∀ pre r post,
    Table_all_ok base (rows self) = true →
    rows self = pre ++ r :: post →
    forallb (record_pass cm) pre = true →
    type_pass cm r = true →
    (missing cm r ≠ ∅ →
       (refresh output self).1 = Raise (NotNullException (missing cm r)))
    ∧ (TINYDB_DATETIME = true →
       ∀ r1 k s r2,
         r = r1 ++ (k, VStr s) :: r2 →
         k ∉ r1.*1 → k ∉ r2.*1 →
         normalize_chars (str_strip s) = ""
         ∨ normalize_chars (str_strip s) = "-" →
         k ∈ not_null cm →
         k ∈ missing cm r
         ∧ (refresh output self).1 = Raise (NotNullException (missing cm r))).
Proof.
  intros cm pre r post Hall Hrows Hpre Htype.
  assert (Hnull : missing cm r ≠ ∅ →
    (refresh output self).1 = Raise (NotNullException (missing cm r))).
  { intros Hm. rewrite refresh_pure; simpl. rewrite Hall, Hrows. fold cm.
    destruct (scan_rows_stop cm pre r post
                (if output then Some cm else None) Hpre) as [om' ->].
    unfold scan_record.
    apply andb_true_iff in Htype as [Hp%bool_decide_eq_true Htype].
    destruct (scan_fields_pass cm _ om' Htype) as [om'' ->].
    rewrite Hp, bool_decide_eq_true_2; [done|].
    destruct (decide (size (missing cm r) = 0%nat)) as [H0%size_empty_inv|]; [|lia].
    by apply leibniz_equiv in H0. }
  split; [done|].
  intros Hflag r1 k s r2 -> Hk1 Hk2 Hv Hreq.
  assert (Hin : k ∈ missing cm (r1 ++ (k, VStr s) :: r2)).
  { unfold missing. apply elem_of_difference. split; [done|].
    rewrite elem_of_list_to_set.
    by intros [?|?]%(parse_record_keys_skip r1 r2 k s YRecord k Hflag Hv). }
  split; [done|]. apply Hnull. intros He. rewrite He in Hin.
  by apply not_elem_of_empty in Hin.
Qed.

(** ** Properties of the uniqueness bookkeeping *)

Lemma with_mapping_id self : with_mapping self (constraint_mapping self) = self.
Proof. by destruct self. Qed.

Lemma update_loop_pure items self :
  foldM (λ (_ : unit) '(k, v),
           let! cm := gets constraint_mapping in
           match preexisting cm !! k with
           | Some seen =>
               if bool_decide (v ∈ seen)
               then raise (NotUniqueException v k)
               else set_mapping (seen_add k v cm)
           | None => ret tt
           end) items tt self
  = (match (seen_after_update (constraint_mapping self) items).2 with
     | Some e => Raise e
     | None => Ok tt
     end,
     with_mapping self (seen_after_update (constraint_mapping self) items).1).
Proof.
  revert self. induction items as [|[k v] items IH]; intros self; simpl.
  { unfold ret. by rewrite with_mapping_id. }
  unfold bind at 1. unfold bind at 1, gets at 1.
  destruct (preexisting (constraint_mapping self) !! k) as [seen|] eqn:Hk.
  - case_bool_decide.
    + unfold raise. simpl. by rewrite with_mapping_id.
    + unfold set_mapping at 1. rewrite IH. done.
  - unfold ret at 1. apply IH.
Qed.

Lemma _update_uniqueness_pure row self :
  _update_uniqueness row self
  = (outcome (uniqueness_check (constraint_mapping self) row).2,
     with_mapping self (uniqueness_check (constraint_mapping self) row).1).
Proof.
  unfold _update_uniqueness, for_gen, bind, uniqueness_check.
  rewrite update_loop_pure. simpl.
  destruct (seen_after_update _ _).2; [done|].
  by destruct (parse_record row YType).2.
Qed.

Lemma remove_loop_pure items self :
  foldM (λ (_ : unit) '(k, v),
           let! cm := gets constraint_mapping in
           match preexisting cm !! k with
           | Some seen =>
               if bool_decide (v ∈ seen)
               then set_mapping (seen_remove k v cm)
               else ret tt
           | None => ret tt
           end) items tt self
  = (Ok tt,
     with_mapping self (seen_after_remove (constraint_mapping self) items)).
Proof.
  revert self. induction items as [|[k v] items IH]; intros self; simpl.
  { unfold ret. by rewrite with_mapping_id. }
  unfold bind at 1. unfold bind at 1, gets at 1.
  destruct (preexisting (constraint_mapping self) !! k) as [seen|] eqn:Hk.
  - case_bool_decide.
    + unfold set_mapping at 1. by rewrite IH.
    + unfold ret at 1. apply IH.
  - unfold ret at 1. apply IH.
Qed.

Lemma _remove_uniqueness_pure row self :
  _remove_uniqueness row self
  = (outcome (parse_record row YType).2,
     with_mapping self
       (seen_after_remove (constraint_mapping self) (parse_record row YType).1)).
Proof.
  unfold _remove_uniqueness, for_gen, bind. rewrite remove_loop_pure.
  by destruct (parse_record row YType).2.
Qed.

Lemma seen_grows_refl cm : seen_grows cm cm.
Proof. repeat split. intros k seen seen' H1 H2. by simplify_eq. Qed.

Lemma seen_grows_trans cm1 cm2 cm3 :
  seen_grows cm1 cm2 → seen_grows cm2 cm3 → seen_grows cm1 cm3.
Proof.
  intros (Ht & Hn & Hd & Hs) (Ht' & Hn' & Hd' & Hs').
  repeat split; [congruence..|].
  intros k seen seen'' H1 H3.
  assert (Hk : k ∈ dom (preexisting cm2)).
  { rewrite Hd. apply elem_of_dom. eauto. }
  apply elem_of_dom in Hk as [seen' H2].
  etrans; [by eapply Hs|by eapply Hs'].
Qed.

Lemma seen_add_grows k v cm : seen_grows cm (seen_add k v cm).
Proof.
  repeat split; simpl.
  - apply dom_alter_L.
  - intros k' seen seen' H1. rewrite lookup_alter. case_decide as Hkk.
    + subst. rewrite H1. simpl. intros [= <-]. apply union_subseteq_r.
    + rewrite H1. by intros [= <-].
Qed.

Lemma seen_remove_shrinks k v cm : seen_grows (seen_remove k v cm) cm.
Proof.
  repeat split; simpl.
  - symmetry. apply dom_alter_L.
  - intros k' seen seen'. rewrite lookup_alter. case_decide as Hkk.
    + subst. intros H1 H2. rewrite H2 in H1. simpl in H1.
      injection H1 as <-. apply subseteq_difference_l. done.
    + intros H1 H2. by simplify_eq.
Qed.

Lemma seen_after_update_grows cm items :
  seen_grows cm (seen_after_update cm items).1.
Proof.
  revert cm. induction items as [|[k v] items IH]; intros cm; simpl.
  { apply seen_grows_refl. }
  destruct (preexisting cm !! k) as [seen|]; [|apply IH].
  case_bool_decide; [apply seen_grows_refl|].
  eapply seen_grows_trans; [apply seen_add_grows|apply IH].
Qed.

Lemma seen_after_remove_shrinks cm items :
  seen_grows (seen_after_remove cm items) cm.
Proof.
  revert cm. induction items as [|[k v] items IH]; intros cm; simpl.
  { apply seen_grows_refl. }
  destruct (preexisting cm !! k) as [seen|]; [|apply IH].
  case_bool_decide; [|apply IH].
  eapply seen_grows_trans; [apply IH|apply seen_remove_shrinks].
Qed.

Lemma seen_after_delete_shrinks cm found :
  seen_grows (seen_after_delete cm found) cm.
Proof.
  revert cm. induction found as [|r found IH]; intros cm; simpl.
  { apply seen_grows_refl. }
  eapply seen_grows_trans; [apply IH|apply seen_after_remove_shrinks].
Qed.

Lemma removal_loop_shrinks cm found :
  seen_grows (removal_loop cm found).1 cm.
Proof.
  revert cm. induction found as [|r found IH]; intros cm; simpl.
  { apply seen_grows_refl. }
  destruct (parse_record r YType).2; simpl.
  - apply seen_after_remove_shrinks.
  - eapply seen_grows_trans; [apply IH|apply seen_after_remove_shrinks].
Qed.

(** When every found record parses, the removal loop goes over all of
    them. *)
Lemma removal_loop_parses cm found :
  forallb parses found = true →
  removal_loop cm found = (seen_after_delete cm found, None).
Proof.
  revert cm. induction found as [|r found IH]; intros cm; simpl; [done|].
  intros [Hr%bool_decide_eq_true Hfound]%andb_true_iff.
  rewrite Hr. by apply IH.
Qed.

Lemma uniqueness_check_grows cm row :
  seen_grows cm (uniqueness_check cm row).1.
Proof. apply seen_after_update_grows. Qed.

Lemma seen_after_batch_grows cm rs :
  seen_grows cm (seen_after_batch cm rs).1.
Proof.
  revert cm. induction rs as [|r rs IH]; intros cm; simpl.
  { apply seen_grows_refl. }
  destruct (match (seen_after_update cm (parse_record r YType).1).2 with
            | Some e => Some e
            | None => (parse_record r YType).2
            end); simpl.
  - apply seen_after_update_grows.
  - eapply seen_grows_trans; [apply seen_after_update_grows|apply IH].
Qed.

(** A delegated call leaves the mapping alone. *)
Lemma super_mapping c method self :
  constraint_mapping (super c method self).2 = constraint_mapping self.
Proof.
  unfold super, bind, record_call; simpl. by destruct (method (rows self)).
Qed.

(** The write paths share their shape: the uniqueness check, then the
    delegated call. *)
Lemma write_pure row c method self :
  (_update_uniqueness row ;;; super c method) self
  = let after := uniqueness_check (constraint_mapping self) row in
    match after.2 with
    | Some e => (Raise e, with_mapping self after.1)
    | None => super c method (with_mapping self after.1)
    end.
Proof.
  unfold bind at 1. rewrite _update_uniqueness_pure. cbv zeta.
  by destruct (uniqueness_check _ _).2.
Qed.

Lemma write_mapping row c method self :
  constraint_mapping ((_update_uniqueness row ;;; super c method) self).2
  = (seen_after_update (constraint_mapping self) (parse_record row YType).1).1.
Proof.
  rewrite write_pure. cbv zeta.
  destruct (uniqueness_check _ _).2; [done|].
  by rewrite super_mapping.
Qed.

Lemma for_each_update_pure rs self :
  for_each rs _update_uniqueness self
  = (outcome (seen_after_batch (constraint_mapping self) rs).2,
     with_mapping self (seen_after_batch (constraint_mapping self) rs).1).
Proof.
  unfold for_each. generalize tt.
  revert self. induction rs as [|r rs IH]; intros self []; simpl.
  { unfold ret. by rewrite with_mapping_id. }
  unfold bind. rewrite _update_uniqueness_pure.
  destruct (uniqueness_check (constraint_mapping self) r) as [cm1 [e|]] eqn:Hu;
    simpl; unfold uniqueness_check in Hu; injection Hu as Hu1 Hu2;
    rewrite Hu2; simpl; rewrite Hu1; [done|].
  by rewrite IH.
Qed.

Lemma for_each_remove_pure found self :
  for_each found _remove_uniqueness self
  = (outcome (removal_loop (constraint_mapping self) found).2,
     with_mapping self (removal_loop (constraint_mapping self) found).1).
Proof.
  unfold for_each. generalize tt.
  revert self. induction found as [|r found IH]; intros self []; simpl.
  { unfold ret. by rewrite with_mapping_id. }
  unfold bind. rewrite _remove_uniqueness_pure.
  destruct (parse_record r YType).2; simpl; [done|].
  by rewrite IH.
Qed.

(** [delete], step by step: the search; the removal loop over the found
    records; the delegated call; then the refresh, whose exception wins if
    it raises. An exception of the search or of the loop leaves before the
    [try]. *)
Lemma delete_pure filters self :
  delete filters self
  = if Table_find_ok base filters (rows self) then
      let found := filter (λ r, filters r = true) (rows self) in
      let after := removal_loop (constraint_mapping self) found in
      match after.2 with
      | Some e => (Raise e, with_mapping (searched self) after.1)
      | None =>
          let self' :=
            {| rows := (Table_delete base filters (rows self)).2;
               constraint_mapping := after.1;
               calls := calls self ++ [CallFind; CallDelete] |} in
          (match (refresh false self').1 with
           | Raise e => Raise e
           | Ok _ => (Table_delete base filters (rows self)).1
           end, after_refresh self')
      end
    else (Raise StorageError, searched self).
Proof.
  unfold delete, find. unfold bind at 1 2 3 4, record_call at 1, gets at 1.
  simpl.
  destruct (Table_find_ok base filters (rows self)); [|done].
  unfold ret at 1. rewrite for_each_remove_pure. simpl.
  destruct (removal_loop _ _) as [cm' [e|]]; simpl; [done|].
  unfold try_finally, super, bind at 1, record_call at 1. simpl.
  destruct (Table_delete base filters (rows self)) as [r rows'] eqn:Hd. simpl.
  unfold bind at 1. rewrite <- (assoc_L (++)). simpl.
  match goal with |- context [refresh false ?s] =>
    pose proof (refresh_state false s) as Hs;
    destruct (refresh false s) as [[o|e] s']
  end; simpl in *; by subst.
Qed.

Lemma delete_mapping filters self :
  constraint_mapping (delete filters self).2
  = if Table_find_ok base filters (rows self)
    then (removal_loop (constraint_mapping self)
            (filter (λ r, filters r = true) (rows self))).1
    else constraint_mapping self.
Proof.
  rewrite delete_pure.
  destruct (Table_find_ok base filters (rows self)); [|done]. cbv zeta.
  by destruct (removal_loop _ _).2.
Qed.


Lemma seen_after_update_exn cm items cm' e :
  seen_after_update cm items = (cm', Some e) →
  ∃ before after k v,
    e = NotUniqueException v k
    ∧ items = before ++ (k, v) :: after
    ∧ seen_after_update cm before = (cm', None)
    ∧ ∃ seen, preexisting cm' !! k = Some seen ∧ v ∈ seen.
Proof.
  revert cm. induction items as [|[k v] items IH]; intros cm; simpl; [done|].
  destruct (preexisting cm !! k) as [seen|] eqn:Hk.
  - case_bool_decide as Hv.
    + intros [= <- <-]. exists [], items, k, v. split_and!; eauto.
    + intros (before & after & k' & v' & -> & -> & Hb & Hs)%IH.
      exists ((k, v) :: before), after, k', v'. simpl.
      rewrite Hk, bool_decide_eq_false_2 by done. split_and!; eauto.
  - intros (before & after & k' & v' & -> & -> & Hb & Hs)%IH.
    exists ((k, v) :: before), after, k', v'. simpl. rewrite Hk.
    split_and!; eauto.
Qed.

Lemma seen_after_update_kept cm items cm' :
  seen_after_update cm items = (cm', None) →
  ∀ k v, (k, v) ∈ items → k ∈ dom (preexisting cm) →
         ∃ seen', preexisting cm' !! k = Some seen' ∧ v ∈ seen'.
Proof.
  revert cm. induction items as [|[k0 v0] items IH]; intros cm; simpl.
  { intros _ k v []%elem_of_nil. }
  intros Hu k v [[= -> ->]|Hin]%elem_of_cons Hdom.
  - apply elem_of_dom in Hdom as [seen Hk]. rewrite Hk in Hu.
    case_bool_decide as Hv; [done|].
    destruct (seen_after_update_grows (seen_add k0 v0 cm) items)
      as (_ & _ & Hd & Hs).
    rewrite Hu in Hd, Hs. simpl in Hd, Hs.
    assert (Hk' : k0 ∈ dom (preexisting cm')).
    { rewrite Hd. simpl. rewrite dom_alter_L. apply elem_of_dom. eauto. }
    apply elem_of_dom in Hk' as [seen' Hk']. exists seen'. split; [done|].
    eapply (Hs k0 ({[v0]} ∪ seen)); [|done| apply elem_of_union_l, elem_of_singleton; done].
    simpl. rewrite lookup_alter, decide_True by done. by rewrite Hk.
  - destruct (preexisting cm !! k0) as [seen|] eqn:Hk0.
    + case_bool_decide; [done|].
      apply (IH _ Hu k v Hin). simpl. by rewrite dom_alter_L.
    + by apply (IH _ Hu k v Hin).
Qed.

Lemma seen_after_remove_gone cm items k v :
  (k, v) ∈ items →
  ∀ seen, preexisting (seen_after_remove cm items) !! k = Some seen → v ∉ seen.
Proof.
  revert cm. induction items as [|[k0 v0] items IH]; intros cm.
  { intros []%elem_of_nil. }
  intros [[= <- <-]|Hin]%elem_of_cons seen; simpl.
  - destruct (preexisting cm !! k) as [seen0|] eqn:Hk.
    + case_bool_decide as Hv.
      * intros Hafter.
        destruct (seen_after_remove_shrinks (seen_remove k v cm) items)
          as (_ & _ & _ & Hs).
        intros Hin. eapply Hs in Hin; [|done|].
        2:{ simpl. rewrite lookup_alter, decide_True by done. by rewrite Hk. }
        apply elem_of_difference in Hin as [_ Hn]. apply Hn.
        by apply elem_of_singleton.
      * intros Hafter.
        destruct (seen_after_remove_shrinks cm items) as (_ & _ & _ & Hs).
        intros Hin. by eapply Hs in Hin.
    + intros Hafter.
      destruct (seen_after_remove_shrinks cm items) as (_ & _ & Hd & _).
      assert (Hk' : k ∈ dom (preexisting cm)).
      { rewrite Hd. apply elem_of_dom. eauto. }
      apply elem_of_dom in Hk' as [? Hk']. congruence.
  - destruct (preexisting cm !! k0) as [seen0|]; [case_bool_decide|];
      by apply IH.
Qed.

Lemma seen_after_delete_gone cm found r k v :
  r ∈ found → (k, v) ∈ (parse_record r YType).1 →
  ∀ seen, preexisting (seen_after_delete cm found) !! k = Some seen → v ∉ seen.
Proof.
  revert cm. induction found as [|r0 found IH]; intros cm.
  { intros []%elem_of_nil. }
  intros [<-|Hin]%elem_of_cons Hkv seen; simpl.
  - intros Hafter.
    destruct (seen_after_delete_shrinks
                (seen_after_remove cm (parse_record r YType).1) found)
      as (_ & _ & Hd & Hs).
    assert (Hk' : k ∈ dom (preexisting
                    (seen_after_remove cm (parse_record r YType).1))).
    { rewrite Hd. apply elem_of_dom. eauto. }
    apply elem_of_dom in Hk' as [seen1 Hk'].
    intros Hv. eapply Hs in Hv; [|done..].
    by eapply seen_after_remove_gone.
  - by apply IH.
Qed.



(** In a record with distinct keys a key has one entry. *)
Lemma NoDup_fst_agree {A} (l : list (string * A)) k v v' :
  NoDup l.*1 → (k, v) ∈ l → (k, v') ∈ l → v = v'.
Proof.
  induction l as [|[k0 v0] l IH]; csimpl; [by intros _ ?%elem_of_nil|].
  intros [Hk0 Hnd]%NoDup_cons [[= -> ->]|Hin]%elem_of_cons
    [[= ->]|Hin']%elem_of_cons; try done.
  - exfalso. apply Hk0. apply list_elem_of_fmap. by exists (k0, v').
  - subst. exfalso. apply Hk0. apply list_elem_of_fmap. by exists (k0, v).
  - by apply IH.
Qed.

Lemma seen_add_other k v cm k' :
  k' ≠ k → preexisting (seen_add k v cm) !! k' = preexisting cm !! k'.
Proof. intros Hne. simpl. by rewrite lookup_alter_ne. Qed.

(** The check changes the seen-sets of the columns it is given only. *)
Lemma seen_after_update_other cm items k :
  k ∉ items.*1 →
  preexisting (seen_after_update cm items).1 !! k = preexisting cm !! k.
Proof.
  revert cm. induction items as [|[k0 v0] items IH]; intros cm; csimpl; [done|].
  intros [Hne Hnot]%not_elem_of_cons.
  destruct (preexisting cm !! k0) as [seen|]; [|by apply IH].
  case_bool_decide; [done|].
  rewrite IH by done. by apply seen_add_other.
Qed.

(** Distinct columns, each with an entry new to its seen-set: the check
    accepts them all. *)
Lemma seen_after_update_fresh cm items :
  NoDup items.*1 →
  (∀ k v seen, (k, v) ∈ items → preexisting cm !! k = Some seen → v ∉ seen) →
  (seen_after_update cm items).2 = None.
Proof.
  revert cm. induction items as [|[k0 v0] items IH]; intros cm; csimpl; [done|].
  intros [Hk0 Hnd]%NoDup_cons Hnew.
  destruct (preexisting cm !! k0) as [seen|] eqn:Hs.
  - rewrite bool_decide_eq_false_2.
    2:{ eapply Hnew; [apply elem_of_cons; by left|done]. }
    apply IH; [done|]. intros k v seen' Hin.
    assert (k ≠ k0) as Hne.
    { intros ->. apply Hk0. apply list_elem_of_fmap. by exists (k0, v). }
    rewrite seen_add_other by done.
    apply Hnew, elem_of_cons. by right.
  - apply IH; [done|]. intros k v seen' Hin. apply Hnew, elem_of_cons. by right.
Qed.

(** What the check accepted was new to its seen-set. *)
Lemma seen_after_update_new cm items cm' k v seen :
  seen_after_update cm items = (cm', None) →
  (k, v) ∈ items → preexisting cm !! k = Some seen → v ∉ seen.
Proof.
  revert cm seen. induction items as [|[k0 v0] items IH]; intros cm seen; simpl.
  { by intros _ ?%elem_of_nil. }
  intros Hu [[= <- <-]|Hin]%elem_of_cons Hk.
  - rewrite Hk in Hu. by case_bool_decide.
  - destruct (preexisting cm !! k0) as [seen0|] eqn:Hk0; [|by eapply IH].
    case_bool_decide; [done|].
    destruct (seen_add_grows k0 v0 cm) as (_ & _ & Hd & Hs).
    assert (Hk' : k ∈ dom (preexisting (seen_add k0 v0 cm))).
    { rewrite Hd. apply elem_of_dom. eauto. }
    apply elem_of_dom in Hk' as [seen1 Hk'].
    intros Hv. eapply (IH _ seen1 Hu Hin Hk').
    by apply (Hs k seen seen1 Hk Hk').
Qed.

Lemma seen_after_update_dup cm items k v seen :
  (k, v) ∈ items → preexisting cm !! k = Some seen → v ∈ seen →
  ∃ k' v' cm', seen_after_update cm items
               = (cm', Some (NotUniqueException v' k')).
Proof.
  revert cm seen. induction items as [|[k0 v0] items IH]; intros cm seen.
  { intros []%elem_of_nil. }
  intros [[= <- <-]|Hin]%elem_of_cons Hk Hv; simpl.
  { rewrite Hk, bool_decide_eq_true_2 by done. eauto. }
  destruct (preexisting cm !! k0) as [seen0|] eqn:Hk0; [|by eapply IH].
  case_bool_decide; [eauto|].
  destruct (seen_add_grows k0 v0 cm) as (_ & _ & Hd & Hs).
  assert (Hk' : k ∈ dom (preexisting (seen_add k0 v0 cm))).
  { rewrite Hd. apply elem_of_dom. eauto. }
  apply elem_of_dom in Hk' as [seen1 Hk'].
  eapply (IH _ seen1); [done..|]. by apply (Hs k seen seen1 Hk Hk').
Qed.
Lemma seen_after_remove_keeps cm items k v seen :
  preexisting cm !! k = Some seen → v ∈ seen → (k, v) ∉ items →
  ∃ seen', preexisting (seen_after_remove cm items) !! k = Some seen'
           ∧ v ∈ seen'.
Proof.
  revert cm seen. induction items as [|[k0 v0] items IH]; intros cm seen.
  { simpl. eauto. }
  intros Hk Hv Hnot. apply not_elem_of_cons in Hnot as [Hne Hnot]. simpl.
  destruct (preexisting cm !! k0) as [seen0|] eqn:Hk0; [|by eapply IH].
  case_bool_decide as Hv0; [|by eapply IH].
  destruct (decide (k0 = k)) as [->|Hkk].
  - eapply (IH _ (seen ∖ {[v0]})); [|  |done].
    + simpl. rewrite lookup_alter, decide_True by done. by rewrite Hk.
    + apply elem_of_difference. split; [done|].
      rewrite elem_of_singleton. intros ->. done.
  - eapply (IH _ seen); [|done..].
    simpl. rewrite lookup_alter, decide_False by done. done.
Qed.

Lemma removal_loop_keeps cm found k v seen :
  preexisting cm !! k = Some seen → v ∈ seen →
  (∀ r, r ∈ found → (k, v) ∉ (parse_record r YType).1) →
  ∃ seen', preexisting (removal_loop cm found).1 !! k = Some seen' ∧ v ∈ seen'.
Proof.
  revert cm seen. induction found as [|r found IH]; intros cm seen Hk Hv Hnot.
  { simpl. eauto. }
  simpl.
  destruct (seen_after_remove_keeps cm (parse_record r YType).1 k v seen)
    as (seen1 & Hk1 & Hv1); [done..| |].
  { apply Hnot, elem_of_cons. by left. }
  destruct (parse_record r YType).2; simpl; [eauto|].
  apply (IH _ seen1); [done..|].
  intros r' Hin. apply Hnot, elem_of_cons. by right.
Qed.

(** An entry that the matched records do not carry is in its seen-set after
    the delete as it was before. *)
Lemma delete_keeps filters self k v seen :
  preexisting (constraint_mapping self) !! k = Some seen →
  v ∈ seen →
  (∀ r, r ∈ rows self → filters r = true →
        (k, v) ∉ (parse_record r YType).1) →
  ∃ seen', preexisting (constraint_mapping (delete filters self).2) !! k
           = Some seen'
           ∧ v ∈ seen'.
Proof.
  intros Hk Hv Hnot. rewrite delete_mapping.
  destruct (Table_find_ok base filters (rows self)); [|eauto].
  apply (removal_loop_keeps _ _ k v seen); [done..|].
  intros r [Hf Hin]%list_elem_of_filter. by apply Hnot.
Qed.

(** A record that yields an entry already in its column's seen-set is
    rejected by every write path before anything is delegated. *)
Lemma claimed_entry_rejected row c method self k v seen :
  (k, v) ∈ (parse_record row YType).1 →
  preexisting (constraint_mapping self) !! k = Some seen → v ∈ seen →
  ∃ k' v' cm',
    (_update_uniqueness row ;;; super c method) self
    = (Raise (NotUniqueException v' k'), with_mapping self cm').
Proof.
  intros Hin Hk Hv. rewrite write_pure. unfold uniqueness_check.
  destruct (seen_after_update_dup _ _ k v seen Hin Hk Hv)
    as (k' & v' & cm' & ->).
  simpl. eauto.
Qed.

Lemma second_occurrence_rejected row row' self self1 k v :
  _update_uniqueness row self = (Ok tt, self1) →
  (k, v) ∈ (parse_record row YType).1 →
  k ∈ dom (preexisting (constraint_mapping self)) →
  (k, v) ∈ (parse_record row' YType).1 →
  ∃ k' v', (_update_uniqueness row' self1).1 = Raise (NotUniqueException v' k').
Proof.
  intros Hu Hin Hdom Hin'. rewrite _update_uniqueness_pure in Hu.
  unfold uniqueness_check in Hu. simpl in Hu.
  destruct (seen_after_update _ _) as [cm1 [e|]] eqn:Hs; [done|].
  injection Hu as _ <-.
  destruct (seen_after_update_kept _ _ _ Hs k v Hin Hdom) as (seen & Hk & Hv).
  rewrite _update_uniqueness_pure. unfold uniqueness_check. simpl.
  destruct (seen_after_update_dup cm1 _ k v seen Hin' Hk Hv)
    as (k' & v' & cm' & ->).
  simpl. eauto.
Qed.

(** An accepted check: the record parses and the loop over its fields ends
    without an exception. *)
Lemma check_accepts row self :
  (_update_uniqueness row self).1 = Ok tt →
  (parse_record row YType).2 = None
  ∧ seen_after_update (constraint_mapping self) (parse_record row YType).1
    = ((uniqueness_check (constraint_mapping self) row).1, None).
Proof.
  rewrite _update_uniqueness_pure. unfold uniqueness_check. simpl.
  destruct (seen_after_update _ _) as [cm1 [e|]]; simpl; [done|].
  by destruct (parse_record row YType).2.
Qed.

(** A uniqueness violation comes from the loop, not from the parse. *)
Lemma check_rejects row self v k :
  (_update_uniqueness row self).1 = Raise (NotUniqueException v k) →
  seen_after_update (constraint_mapping self) (parse_record row YType).1
  = ((uniqueness_check (constraint_mapping self) row).1,
     Some (NotUniqueException v k)).
Proof.
  rewrite _update_uniqueness_pure. unfold uniqueness_check. simpl.
  destruct (seen_after_update _ _) as [cm1 [e|]]; simpl.
  - by intros [= ->].
  - destruct (parse_record row YType).2 as [e|] eqn:Hstop; [|done].
    simpl. intros [= ->].
    by apply parse_record_stop_exn in Hstop as [?|?].
Qed.


(** What a delegated call gives: the method's outcome and rows, one more
    call in the log. *)
Lemma super_outcome c method self :
  (super c method self).1 = (method (rows self)).1
  ∧ rows (super c method self).2 = (method (rows self)).2
  ∧ calls (super c method self).2 = calls self ++ [c].
Proof.
  unfold super, bind, record_call. simpl. by destruct (method (rows self)).
Qed.

(** An accepted write is the delegated call on the table with the record's
    entries added. *)
Lemma write_accepted row c method self :
  (_update_uniqueness row self).1 = Ok tt →
  (_update_uniqueness row ;;; super c method) self
  = super c method
      (with_mapping self (uniqueness_check (constraint_mapping self) row).1).
Proof.
  intros Hok. rewrite write_pure. cbv zeta.
  rewrite _update_uniqueness_pure in Hok. cbn [fst] in Hok.
  by destruct (uniqueness_check _ _).2.
Qed.

(** A rejected write: nothing is delegated, and the exception is a
    uniqueness violation for an entry the record yields or what the parse
    of the record ends with. *)
Lemma write_rejected row c method self e :
  (_update_uniqueness row self).1 = Raise e →
  (_update_uniqueness row ;;; super c method) self
  = (Raise e,
     with_mapping self (uniqueness_check (constraint_mapping self) row).1)
  ∧ ((∃ v k, e = NotUniqueException v k ∧ (k, v) ∈ (parse_record row YType).1)
     ∨ ((e = ValueError ∨ e = OverflowError)
        ∧ (parse_record row YType).2 = Some e)).
Proof.
  intros Hc. rewrite write_pure. cbv zeta.
  rewrite _update_uniqueness_pure in Hc. cbn [fst] in Hc.
  unfold uniqueness_check in *.
  destruct (seen_after_update (constraint_mapping self)
              (parse_record row YType).1) as [cm1 [e'|]] eqn:Hu; simpl in *.
  - injection Hc as ->. split; [done|]. left.
    apply seen_after_update_exn in Hu
      as (before & aft & k & v & -> & Hitems & _).
    exists v, k. split; [done|]. rewrite Hitems. apply elem_of_app. right.
    apply elem_of_cons. by left.
  - destruct (parse_record row YType).2 as [e'|] eqn:Hstop; simpl in *; [|done].
    injection Hc as ->. split; [done|]. right. split; [|done].
    by eapply parse_record_stop_exn.
Qed.

Lemma column_values_values stored k x :
  x ∈ column_values stored k → ∃ y, x = OValue y.
Proof.
  unfold column_values. rewrite elem_of_list_to_set, list_elem_of_bind.
  intros (r & Hx & _). apply list_elem_of_omap in Hx as ([k' v'] & _ & Hx).
  simpl in Hx. case_decide; [|done].
  destruct (normalize_field v') as [[y|]|]; [|done..].
  injection Hx as <-. eauto.
Qed.

(** C6, where the code leaves the invariant. When a write's uniqueness
    check accepts a record that has a field in a tracked column, the
    column's seen-set holds, after the write, the class of that field;
    what the column holds in storage are values, never a class; so the
    seen-set differs from the column's stored values, whatever the storage
    did with the write. *)
Theorem accepted_write_breaks_sync (row : record) (self : XSchemaTable)
  (k : string) (v : pyobj) :
  (_update_uniqueness row self).1 = Ok tt →
  (k, v) ∈ (parse_record row YType).1 →
  k ∈ dom (preexisting (constraint_mapping self)) →
  let self1 := (insert row self).2 in
  (∃ t seen, v = OType t
             ∧ preexisting (constraint_mapping self1) !! k = Some seen
             ∧ OType t ∈ seen)
  ∧ (∀ x, x ∈ column_values (rows self1) k → ∃ y, x = OValue y)
  ∧ ¬ seen_in_sync self1.
Proof.
  intros Hok Hin Hdom self1.
  destruct (check_accepts row self Hok) as [_ Hu].
  destruct (seen_after_update_kept _ _ _ Hu k v Hin Hdom) as (seen & Hk & Hv).
  destruct (parse_record_type_class _ _ _ Hin) as [t ->].
  assert (Hcm : constraint_mapping self1
                = (uniqueness_check (constraint_mapping self) row).1).
  { apply write_mapping. }
  split_and!.
  - exists t, seen. by rewrite Hcm.
  - intros x. apply column_values_values.
  - intros Hsync. rewrite <- Hcm in Hk. specialize (Hsync k seen Hk).
    rewrite Hsync in Hv. by apply column_values_values in Hv as [y [=]].
Qed.


(** C8, as the delete path does it. When the search succeeds and the found
    records parse, an entry that a matched stored record carries in a column
    is out of that column's seen-set after the delete, whatever the removal
    and the refresh did. A record with distinct keys that carries the entry
    in that column is then not rejected for that column by the check of an
    insert; when the check raises nothing the insert is the delegated call;
    and the check raises nothing when the record parses and its other
    entries are new to their seen-sets. An entry of a seen-set that no
    matched record carries stays in it, and the insert of any record
    carrying it is rejected with nothing delegated. *)
Theorem insert_after_delete (self : XSchemaTable) (filters : record → bool)
  (r : record) (k : string) (v : pyobj) :
  Table_find_ok base filters (rows self) = true →
  forallb parses (filter (λ r, filters r = true) (rows self)) = true →
  r ∈ rows self →
  filters r = true →
  (k, v) ∈ (parse_record r YType).1 →
  let self' := (delete filters self).2 in
  let cm' := constraint_mapping self' in
  (∀ seen, preexisting cm' !! k = Some seen → v ∉ seen)
  ∧ (∀ row,
       NoDup row.*1 →
       (k, v) ∈ (parse_record row YType).1 →
       (∀ v0, (_update_uniqueness row self').1
              ≠ Raise (NotUniqueException v0 k))
       ∧ ((_update_uniqueness row self').1 = Ok tt →
          (insert row self').1 = (Table_insert base row (rows self')).1
          ∧ rows (insert row self').2 = (Table_insert base row (rows self')).2
          ∧ calls (insert row self').2 = calls self' ++ [CallInsert row])
       ∧ (parses row = true →
          (∀ k' v' seen, (k', v') ∈ (parse_record row YType).1 → k' ≠ k →
                         preexisting cm' !! k' = Some seen → v' ∉ seen) →
          (_update_uniqueness row self').1 = Ok tt))
  ∧ (∀ k2 v2 seen2,
       preexisting (constraint_mapping self) !! k2 = Some seen2 →
       v2 ∈ seen2 →
       (∀ r', r' ∈ rows self → filters r' = true →
              (k2, v2) ∉ (parse_record r' YType).1) →
       (∃ seen', preexisting cm' !! k2 = Some seen' ∧ v2 ∈ seen')
       ∧ ∀ row, (k2, v2) ∈ (parse_record row YType).1 →
           ∃ k' v', (insert row self').1 = Raise (NotUniqueException v' k')
                    ∧ rows (insert row self').2 = rows self'
                    ∧ calls (insert row self').2 = calls self').
Proof.
  intros Hfind Hparse Hr Hf Hkv self' cm'.
  assert (Hgone : ∀ seen, preexisting cm' !! k = Some seen → v ∉ seen).
  { unfold cm', self'. rewrite delete_mapping, Hfind.
    rewrite (removal_loop_parses _ _ Hparse). simpl.
    apply (seen_after_delete_gone _ _ r); [|done].
    apply list_elem_of_filter. done. }
  split_and!; [done| |].
  - intros row Hnd Hin.
    pose proof (parse_record_keys_NoDup row YType Hnd) as Hndi.
    split_and!.
    + intros v0 Hrej. apply check_rejects in Hrej.
      apply seen_after_update_exn in Hrej
        as (before & after & k0 & v0' & [= <- <-] & Hitems & Hb & seen & Hk & Hv).
      rewrite Hitems in Hin, Hndi. rewrite fmap_app in Hndi. csimpl in Hndi.
      apply NoDup_app in Hndi as (_ & Hba & [Hka _]%NoDup_cons).
      assert (k ∉ before.*1) as Hkb.
      { intros Hb'. apply (Hba k Hb'). apply elem_of_cons. by left. }
      assert (v0 = v) as ->.
      { apply elem_of_app in Hin as [Hin|[[= ->]|Hin]%elem_of_cons]; [|done|].
        - exfalso. apply Hkb. apply list_elem_of_fmap. by exists (k, v).
        - exfalso. apply Hka. apply list_elem_of_fmap. by exists (k, v). }
      pose proof (seen_after_update_other (constraint_mapping self') before k Hkb)
        as Hsame.
      rewrite Hb in Hsame. cbn [fst] in Hsame. rewrite Hk in Hsame.
      by apply (Hgone seen).
    + intros Hok. unfold insert. rewrite (write_accepted _ _ _ _ Hok).
      exact (super_outcome _ _ _).
    + intros Hp%bool_decide_eq_true Hnew.
      rewrite _update_uniqueness_pure. unfold uniqueness_check. simpl.
      rewrite seen_after_update_fresh, Hp; [done..|].
      intros k' v' seen Hin' Hk'.
      destruct (decide (k' = k)) as [->|Hne]; [|by eapply Hnew].
      assert (v' = v) as ->; [|by apply Hgone].
      by eapply NoDup_fst_agree.
  - intros k2 v2 seen2 Hk2 Hv2 Hnot.
    destruct (delete_keeps filters self k2 v2 seen2 Hk2 Hv2 Hnot)
      as (seen' & Hk' & Hv').
    split; [eauto|]. intros row Hin.
    destruct (claimed_entry_rejected row (CallInsert row)
                (Table_insert base row) self' k2 v2 seen' Hin Hk' Hv')
      as (k' & v' & cm1 & Hrej).
    exists k', v'. unfold insert. by rewrite Hrej.
Qed.



(** C10. When the uniqueness check rejects a record at one of its fields,
    the fields iterated before it have been processed without an exception,
    and the state the rejected write leaves has, for each of them that lies
    in a tracked column, its entry in that column's seen-set: nothing added
    for the rejected record is rolled back. The write paths leave exactly
    this state. *)
Theorem rejected_write_keeps_additions (row : record) (self self' : XSchemaTable)
  (v : pyobj) (k : string) :
  _update_uniqueness row self = (Raise (NotUniqueException v k), self') →
  (∃ before after,
     (parse_record row YType).1 = before ++ (k, v) :: after
     ∧ seen_after_update (constraint_mapping self) before
       = (constraint_mapping self', None)
     ∧ ∀ k' v', (k', v') ∈ before →
                k' ∈ dom (preexisting (constraint_mapping self)) →
                ∃ seen', preexisting (constraint_mapping self') !! k' = Some seen'
                         ∧ v' ∈ seen')
  ∧ rows self' = rows self
  ∧ insert row self = (Raise (NotUniqueException v k), self')
  ∧ (∀ keys, insert_ignore row keys self = (Raise (NotUniqueException v k), self'))
  ∧ (∀ keys, update row keys self = (Raise (NotUniqueException v k), self'))
  ∧ (∀ keys, upsert row keys self = (Raise (NotUniqueException v k), self')).
Proof.
  intros Hu.
  assert (Hw : ∀ c method,
    (_update_uniqueness row ;;; super c method) self
    = (Raise (NotUniqueException v k), self')).
  { intros c method. unfold bind. by rewrite Hu. }
  assert (Hrej : (_update_uniqueness row self).1
                 = Raise (NotUniqueException v k)) by by rewrite Hu.
  apply check_rejects in Hrej.
  rewrite _update_uniqueness_pure in Hu. injection Hu as _ <-.
  apply seen_after_update_exn in Hrej
    as (before & after & k' & v' & [= <- <-] & Hitems & Hb & _).
  split_and!; try done; try (intros keys; apply Hw); [|apply Hw].
  exists before, after. split_and!; [done..|].
  intros k' v' Hin Hdom. by eapply (seen_after_update_kept _ before).
Qed.

(** ** Further properties of the normalizer *)

Lemma normalize_field_text s :
  TINYDB_DATETIME = true →
  normalize_field (VStr s)
  = match reinterpret s with
    | Raise e => Raise e
    | Ok None => Ok None
    | Ok (Some x) => Ok (Some (if is_date x then combine_min x else x))
    end.
Proof. intros Hflag. unfold normalize_field. by rewrite Hflag. Qed.

(** C1, where the code leaves the claimed classification. With the flag on
    a text field is classified from [v], its text trimmed and then
    NFKD-normalized. When [v.isdigit()] holds and [int(v)] raises, when a
    ['.'] can be removed from [v] to leave a text for which [isdigit()]
    holds and [float(v)] raises, and when [v] goes to the date parser and
    the parser raises an [OverflowError], the generator ends at that field
    with the exception, in every mode: the field is given no class, and the
    fields after it are not reached. *)
Theorem parse_record_raises :
  TINYDB_DATETIME = true →
  ∀ (k s : string) (rest : record) (yield_ : yield_mode),
    let v := normalize_chars (str_strip s) in
    (str_isdigit v = true → int_ v = None →
       parse_record ((k, VStr s) :: rest) yield_ = ([], Some ValueError))
    ∧ (str_isdigit v = false →
       PyStr.contains "." v = true →
       str_isdigit (PyStr.remove_first "." v) = true →
       float_ v = None →
       parse_record ((k, VStr s) :: rest) yield_ = ([], Some ValueError))
    ∧ (str_isdigit v = false →
       PyStr.contains "." v && str_isdigit (PyStr.remove_first "." v) = false →
       v ≠ "" → v ≠ "-" →
       dateutil_parser_parse v = ParserOverflowError →
       parse_record ((k, VStr s) :: rest) yield_ = ([], Some OverflowError)).
Proof.
  intros Hflag k s rest yield_ v. split_and!.
  - intros Hd Hi. apply parse_record_cons_raise.
    rewrite (normalize_field_text s Hflag). unfold reinterpret. fold v.
    by rewrite Hd, Hi.
  - intros Hd Hc Hr Hf. apply parse_record_cons_raise.
    rewrite (normalize_field_text s Hflag). unfold reinterpret. fold v.
    by rewrite Hd, Hc, Hr, Hf.
  - intros Hd Hf Hne Hnh Hp. apply parse_record_cons_raise.
    rewrite (normalize_field_text s Hflag). unfold reinterpret. fold v.
    rewrite Hd, Hf, Hp, bool_decide_eq_false_2; [done|]. by intros [?|?].
Qed.

(** X23. With the flag on, what a text field is classified as when nothing
    raises. From [v], the text trimmed and then NFKD-normalized: if
    [v.isdigit()] and [int(v)] returns, Integer; if not, and a ['.'] can be
    removed to leave a text for which [isdigit()] holds, and [float(v)]
    returns, Float; empty or a lone hyphen, the field is skipped in every
    mode; anything else is a Timestamp when the date parser returns and a
    String when it raises its [ValueError]. *)
Theorem parse_record_classifies :
  TINYDB_DATETIME = true →
  ∀ (k s : string) (rest : record),
    let v := normalize_chars (str_strip s) in
    let field := parse_record ((k, VStr s) :: rest) YType in
    (str_isdigit v = true → is_Some (int_ v) →
       field = yields (k, OType TInt) (parse_record rest YType))
    ∧ (str_isdigit v = false →
       PyStr.contains "." v = true →
       str_isdigit (PyStr.remove_first "." v) = true →
       is_Some (float_ v) →
       field = yields (k, OType TFloat) (parse_record rest YType))
    ∧ (v = "" ∨ v = "-" →
       ∀ yield_, parse_record ((k, VStr s) :: rest) yield_
                 = parse_record rest yield_)
    ∧ (str_isdigit v = false →
       PyStr.contains "." v && str_isdigit (PyStr.remove_first "." v) = false →
       v ≠ "" → v ≠ "-" →
       (∀ day usec, dateutil_parser_parse v = Parsed day usec →
          field = yields (k, OType TDatetime) (parse_record rest YType))
       ∧ (dateutil_parser_parse v = ParserValueError →
          field = yields (k, OType TStr) (parse_record rest YType))).
Proof.
  intros Hflag k s rest v field. unfold field. split_and!.
  - intros Hd [n Hi].
    apply (parse_record_cons_type k (VStr s) (VInt n)).
    rewrite (normalize_field_text s Hflag). unfold reinterpret. fold v.
    by rewrite Hd, Hi.
  - intros Hd Hc Hr [x Hf].
    apply (parse_record_cons_type k (VStr s) (VFloat x)).
    rewrite (normalize_field_text s Hflag). unfold reinterpret. fold v.
    by rewrite Hd, Hc, Hr, Hf.
  - intros Hv yield_. by apply parse_record_skip_field.
  - intros Hd Hf Hne Hnh. split.
    + intros day usec Hp.
      apply (parse_record_cons_type k (VStr s) (VDatetime day 0)).
      rewrite (normalize_field_text s Hflag). unfold reinterpret. fold v.
      rewrite Hd, Hf, Hp, bool_decide_eq_false_2; [done|]. by intros [?|?].
    + intros Hp.
      apply (parse_record_cons_type k (VStr s) (VStr v)).
      rewrite (normalize_field_text s Hflag). unfold reinterpret. fold v.
      rewrite Hd, Hf, Hp, bool_decide_eq_false_2; [done|]. by intros [?|?].
Qed.

Lemma normalize_field_no_date v v' :
  normalize_field v = Ok (Some v') → type_of v' ≠ TDate.
Proof.
  unfold normalize_field.
  destruct (if TINYDB_DATETIME then _ else _) as [[x|]|]; [|done..].
  intros [= <-]. by destruct x.
Qed.

(** X1. With the normalize-datetime flag off, no field is skipped, no text is
    reinterpreted and nothing raises: every field is yielded in order, a
    text as a String whatever it holds (the empty text and the lone hyphen
    included), a date or datetime as the datetime at midnight of its day. *)
Theorem parse_record_flag_off :
  TINYDB_DATETIME = false →
  ∀ r : record,
    parse_record r YType
    = (map (λ kv, (kv.1, OType (type_of (combine_min kv.2)))) r, None)
    ∧ parse_record r YRecord
      = (map (λ kv, (kv.1, OValue (if is_date kv.2
                                   then VStr (isoformat (combine_min kv.2))
                                   else kv.2))) r, None).
Proof.
  intros Hflag r.
  assert (Hfield : ∀ v, normalize_field v = Ok (Some (combine_min v))).
  { intros v. unfold normalize_field. rewrite Hflag. by destruct v. }
  induction r as [|[k v] r [IHt IHr]]; simpl; [done|].
  rewrite Hfield, IHt, IHr. simpl. split; [done|].
  by destruct v.
Qed.

(** X2. Whatever the flag, the class [date] is never yielded in ['type'] mode,
    and no date or datetime value is yielded in ['record'] mode: a date is
    promoted to a datetime first, and datetimes leave as text. *)
Theorem parse_record_no_date (r : record) :
  Forall (λ kx, ∃ t, kx.2 = OType t ∧ t ≠ TDate) (parse_record r YType).1
  ∧ Forall (λ kx, ∃ v, kx.2 = OValue v ∧ is_date v = false)
      (parse_record r YRecord).1.
Proof.
  induction r as [|[k v] r [IHt IHr]]; simpl; [by split|].
  destruct (normalize_field v) as [[v'|]|e] eqn:Hv; [|done|by split].
  destruct (parse_record r YType) as [it st], (parse_record r YRecord) as [ir sr].
  simpl in *. split.
  - constructor; [|done]. simpl. eexists. split; [done|].
    by eapply normalize_field_no_date.
  - destruct (is_date v') eqn:Hd; simpl; (constructor; [|done]); simpl; eauto.
Qed.

Lemma parse_record_no_text (r : record) yield_ :
  yield_ ≠ YOther →
  Forall (λ kv, ∀ s, kv.2 ≠ VStr s) r → (parse_record r yield_).2 = None.
Proof.
  intros Hy. induction r as [|[k v] r IH]; simpl; [done|].
  intros [Hv Hr]%Forall_cons. simpl in Hv.
  destruct (normalize_field v) as [[x|]|e] eqn:Hn.
  - specialize (IH Hr). destruct yield_; [| |done]; simpl.
    + by destruct (parse_record r YType).
    + destruct (is_date x); by destruct (parse_record r YRecord).
  - by apply IH.
  - apply normalize_field_exn in Hn as (_ & _ & s & ->). by destruct (Hv s).
Qed.

(** X3. The two modes agree on which fields are there and on how the generator
    ends: the keys yielded in ['record'] mode are those yielded in ['type']
    mode, in the same order; they are picked from the record's keys in the
    record's order; the exception that ends one mode ends the other; it is
    a [ValueError] or an [OverflowError]; and a record that holds no text
    ends without one. *)
Theorem parse_record_views_agree (r : record) :
  (parse_record r YRecord).1.*1 = (parse_record r YType).1.*1
  ∧ sublist (parse_record r YType).1.*1 r.*1
  ∧ (parse_record r YRecord).2 = (parse_record r YType).2
  ∧ (∀ e, (parse_record r YType).2 = Some e →
          e = ValueError ∨ e = OverflowError)
  ∧ (Forall (λ kv, ∀ s, kv.2 ≠ VStr s) r → (parse_record r YType).2 = None).
Proof.
  split_and!.
  - apply parse_record_same_keys.
  - apply parse_record_keys_sublist.
  - apply parse_record_stop_agree.
  - intros e. apply parse_record_stop_exn.
  - by apply parse_record_no_text.
Qed.

(** X4. With a [yield_] that is neither ['type'] nor ['record'] nothing is ever
    yielded; the generator ends without an exception exactly when every
    field is skipped, the empty record included; otherwise it ends at the
    first field that is not skipped, with that field's own exception or
    with the [ValueError] of [_yield_switch]. *)
Theorem parse_record_other_mode (r : record) :
  (parse_record r YOther).1 = []
  ∧ ((parse_record r YOther).2 = None
     ↔ Forall (λ kv, normalize_field kv.2 = Ok None) r)
  ∧ (∀ e, (parse_record r YOther).2 = Some e →
          e = ValueError ∨ e = OverflowError).
Proof.
  split_and!.
  - induction r as [|[k v] r IH]; simpl; [done|].
    by destruct (normalize_field v) as [[x|]|e].
  - induction r as [|[k v] r IH]; simpl; [done|].
    destruct (normalize_field v) as [[x|]|e] eqn:Hv; simpl.
    + split; [done|]. intros [Hx _]%Forall_cons. simpl in Hx. congruence.
    + rewrite IH. split; [by constructor|]. by intros [_ ?]%Forall_cons.
    + split; [done|]. intros [Hx _]%Forall_cons. simpl in Hx. congruence.
  - intros e. apply parse_record_stop_exn.
Qed.

(** X5. With the flag on, whitespace around a text changes nothing of what is
    yielded for it, in any mode: the field with the text trimmed beforehand
    gives the same. *)
Theorem parse_record_ignores_outer_whitespace :
  TINYDB_DATETIME = true →
  ∀ (k s : string) (rest : record) (yield_ : yield_mode),
    parse_record ((k, VStr s) :: rest) yield_
    = parse_record ((k, VStr (str_strip s)) :: rest) yield_.
Proof.
  intros Hflag k s rest yield_. simpl.
  assert (Hf : normalize_field (VStr (str_strip s)) = normalize_field (VStr s)).
  { rewrite !(normalize_field_text _ Hflag). unfold reinterpret.
    by rewrite strip_strip. }
  by rewrite Hf.
Qed.

(** X6. [jsonify] yields the keys of the record in their order, leaves no
    datetime in what it yields, ends without an exception, and yields
    every field that is not a datetime as it is. *)
Theorem jsonify_keeps_keys (d : record) :
  (jsonify d).1.*1 = d.*1
  ∧ Forall (λ kv, type_of kv.2 ≠ TDatetime) (jsonify d).1
  ∧ (jsonify d).2 = None
  ∧ Forall2 (λ kv kv', type_of kv.2 ≠ TDatetime → kv' = kv) d (jsonify d).1.
Proof.
  unfold jsonify. simpl.
  induction d as [|[k v] d (IHk & IHf & _ & IHv)]; simpl.
  { by split_and!. }
  split_and!.
  - destruct v; simpl; by f_equal.
  - constructor; [by destruct v|done].
  - done.
  - constructor; [by destruct v|done].
Qed.

(** ** Further properties of the refresh scan *)

Lemma scan_fields_is_ok cm items om :
  is_ok (fold_result (scan_field cm) items om)
  = forallb (λ kv, negb (conflicts cm kv)) items.
Proof.
  destruct (forallb _ items) eqn:Hf.
  - by destruct (scan_fields_pass cm items om Hf) as [om' ->].
  - by destruct (scan_fields_conflict cm items om Hf) as (v & x & ->).
Qed.

Lemma scan_record_is_ok cm om r :
  is_ok (scan_record cm om r) = record_pass cm r.
Proof.
  unfold scan_record, record_pass, type_pass, parses.
  rewrite <- (scan_fields_is_ok cm _ om).
  destruct (fold_result _ _ _) as [om'|e]; simpl.
  2:{ by rewrite andb_false_r. }
  rewrite andb_true_r.
  destruct (parse_record r YType).2 as [e|]; simpl; [done|].
  destruct (decide (missing cm r = ∅)) as [Hm|Hm].
  - rewrite Hm, size_empty.
    rewrite (bool_decide_eq_false_2 (0 < 0)%nat) by lia.
    by rewrite bool_decide_eq_true_2.
  - rewrite (bool_decide_eq_false_2 _ Hm), bool_decide_eq_true_2; [done|].
    destruct (decide (size (missing cm r) = 0%nat))
      as [H0%size_empty_inv|]; [|lia].
    by apply leibniz_equiv in H0.
Qed.

Lemma scan_rows_is_ok cm rs om :
  is_ok (fold_result (scan_record cm) rs om) = forallb (record_pass cm) rs.
Proof.
  revert om. induction rs as [|r rs IH]; intros om; simpl; [done|].
  rewrite <- (scan_record_is_ok cm om r).
  destruct (scan_record cm om r); simpl; [apply IH|done].
Qed.

(** X7. A refresh can be repeated: run again with no write in between, in
    whichever mode the first one ran, it gives the same outcome, the same
    snapshot or the same exception. It leaves the stored rows as they were
    and the only call it makes on the base class is [all()]. *)
Theorem refresh_repeatable (output output' : bool) (self : XSchemaTable) :
  (refresh output (refresh output' self).2).1 = (refresh output self).1
  ∧ rows (refresh output self).2 = rows self
  ∧ calls (refresh output self).2 = calls self ++ [CallRefresh; CallAll].
Proof.
  rewrite !refresh_pure. simpl. split_and!; [done..|].
  by rewrite <- (assoc_L (++)).
Qed.

Lemma refresh_is_ok output self :
  is_ok (refresh output self).1
  = Table_all_ok base (rows self)
    && forallb (record_pass (constraint_mapping self)) (rows self).
Proof.
  rewrite refresh_pure. simpl.
  destruct (Table_all_ok base (rows self)); [|done]. simpl.
  rewrite <- (scan_rows_is_ok _ _
                (if output then Some (constraint_mapping self) else None)).
  by destruct (fold_result _ _ _) as [[om|]|e].
Qed.

(** X8. A refresh succeeds exactly when the stored rows can be read and every
    one of them passes both checks: it parses and its fields raise no type
    conflict against the established classes, and its rendered view lacks
    no required column. *)
Theorem refresh_succeeds_iff_all_pass (output : bool) (self : XSchemaTable) :
  is_ok (refresh output self).1
  = Table_all_ok base (rows self)
    && forallb (record_pass (constraint_mapping self)) (rows self).
Proof. apply refresh_is_ok. Qed.

(** X9. The exceptions of a refresh: a type conflict; a null violation, with at
    least one column named; the [ValueError] or [OverflowError] a stored
    record's parse ends with; the storage's error, when the rows cannot be
    read. It never raises a uniqueness violation, whatever the seen-sets
    and the stored rows hold. *)
Theorem refresh_exceptions (output : bool) (self : XSchemaTable) :
  match (refresh output self).1 with
  | Ok _ => True
  | Raise (NonUniformTypeException _ _) => True
  | Raise (NotNullException is_null) => is_null ≠ ∅
  | Raise ValueError =>
      ∃ r, r ∈ rows self ∧ (parse_record r YType).2 = Some ValueError
  | Raise OverflowError =>
      ∃ r, r ∈ rows self ∧ (parse_record r YType).2 = Some OverflowError
  | Raise StorageError => Table_all_ok base (rows self) = false
  | Raise _ => False
  end.
Proof.
  destruct (refresh output self).1 as [x|e] eqn:Hr; [done|].
  apply refresh_raises in Hr as [[Hall ->]|(r & om & Hin & Hs)]; [done|].
  apply scan_record_raises in Hs
    as [(k & v & x & _ & -> & _)|[[Hstop [-> | ->]]|[-> Hm]]]; eauto.
Qed.

Lemma check_type_unconstrained cm k v :
  type_ cm = ∅ → check_type cm k v = Ok v.
Proof. intros H. unfold check_type. by rewrite H, lookup_empty. Qed.

Lemma record_pass_unconstrained cm r :
  type_ cm = ∅ → not_null cm = ∅ → record_pass cm r = parses r.
Proof.
  intros Ht Hn. unfold record_pass, type_pass, missing. rewrite Hn.
  rewrite bool_decide_eq_true_2.
  2:{ apply set_eq. intros x. rewrite elem_of_difference, elem_of_empty. tauto. }
  rewrite andb_true_r.
  destruct (parses r); [|done]. simpl.
  apply forallb_forall. intros [k v] _. unfold conflicts. simpl.
  by rewrite check_type_unconstrained.
Qed.

(** X10. A table with no established class and no required column passes a
    refresh exactly when its rows can be read and every one of them parses;
    so, the base class being constructed, [__init__] over stored rows
    succeeds exactly then, and, raising or not, leaves those rows and an
    empty mapping. *)
Theorem construction_outcome :
  (∀ output self,
     type_ (constraint_mapping self) = ∅ →
     not_null (constraint_mapping self) = ∅ →
     is_ok (refresh output self).1
     = Table_all_ok base (rows self) && forallb parses (rows self))
  ∧ ∀ stored,
      is_ok (XSchemaTable_init stored).1
      = Table_all_ok base stored && forallb parses stored
      ∧ rows (XSchemaTable_init stored).2 = stored
      ∧ constraint_mapping (XSchemaTable_init stored).2 = ConstraintMapping_new.
Proof.
  assert (Hfree : ∀ output self,
     type_ (constraint_mapping self) = ∅ →
     not_null (constraint_mapping self) = ∅ →
     is_ok (refresh output self).1
     = Table_all_ok base (rows self) && forallb parses (rows self)).
  { intros output self Ht Hn. rewrite refresh_is_ok. f_equal.
    induction (rows self) as [|r rs IH]; simpl; [done|].
    by rewrite IH, record_pass_unconstrained. }
  split; [done|]. intros stored.
  unfold XSchemaTable_init, init_xschema, bind.
  match goal with |- context [refresh false ?s] =>
    pose proof (Hfree false s eq_refl eq_refl) as Hok;
    pose proof (refresh_state false s) as Hs;
    destruct (refresh false s) as [[o|e] s']
  end; simpl in *; by subst.
Qed.

Lemma parse_record_record_key (r : record) k v :
  (parse_record r YRecord).2 = None →
  (k, v) ∈ r → (∃ x, normalize_field v = Ok (Some x)) →
  k ∈ (parse_record r YRecord).1.*1.
Proof.
  induction r as [|[k0 v0] r IH]; [by intros _ ?%elem_of_nil|].
  intros Hstop [[= <- <-]|Hin]%elem_of_cons Hv; simpl in *.
  - destruct Hv as [v' ->].
    destruct (is_date v'), (parse_record r YRecord); simpl; apply elem_of_cons;
      by left.
  - destruct (normalize_field v0) as [[v'|]|e]; [| |done].
    + destruct (is_date v'), (parse_record r YRecord) as [items stop];
        simpl in *; apply elem_of_cons; right; by apply IH.
    + by apply IH.
Qed.

(** X11. The null check looks at the keys only. In a record that parses, a
    required column given with anything but a text, [None] included, is
    never among the missing ones; a text counts as well when the flag is
    off. *)
Theorem null_check_sees_keys_only (cm : ConstraintMapping) (r : record)
  (k : string) (v : value) :
  parses r = true →
  (k, v) ∈ r →
  (∀ s, v = VStr s → TINYDB_DATETIME = false) →
  k ∉ missing cm r.
Proof.
  intros Hp%bool_decide_eq_true Hin Hv. unfold missing.
  intros [_ Hk]%elem_of_difference. apply Hk.
  apply elem_of_list_to_set. apply (parse_record_record_key r k v); [|done|].
  { by rewrite parse_record_stop_agree. }
  unfold normalize_field. destruct TINYDB_DATETIME.
  - destruct v; eauto. by specialize (Hv s eq_refl).
  - eauto.
Qed.

Lemma collapse_single e t :
  collapse e = Single t → e = Single t ∨ e = Many [OType t].
Proof.
  destruct e as [t'|[|[v|t'] [|o ts]]]; simpl; intros [= <-]; auto.
Qed.

Lemma check_type_established cm k v v' t :
  type_ cm !! k = Some (Single t) → check_type cm k v = Ok v' → v' = OType t.
Proof.
  intros Hk. unfold check_type. rewrite Hk. cbn [truthy andb].
  destruct (is_ v (Single t)) eqn:Hv; cbn [negb].
  - intros [= <-]. destruct v as [x|t']; [done|].
    simpl in Hv. by apply bool_decide_eq_true in Hv as ->.
  - destruct (is_ (OType TStr) (Single t) && in_int_float v) eqn:Hw; [|done].
    intros [= <-]. apply andb_true_iff in Hw as [Hs _].
    simpl in Hs. by apply bool_decide_eq_true in Hs as <-.
Qed.

Lemma report_type_reports cm om k t :
  type_ cm !! k = Some (Single t) → reports cm om →
  reports cm (report_type om k (OType t)).
Proof.
  intros Hk (Hn & Hp & Ht). split_and!; [done..|].
  intros k'. unfold report_type. simpl.
  destruct (decide (k = k')) as [<-|Hne].
  - rewrite lookup_insert_eq, Hk. simpl. f_equal.
    specialize (Ht k). rewrite Hk in Ht.
    destruct (type_ om !! k) as [e|]; [|done].
    injection Ht as [-> | ->]%collapse_single.
    + by rewrite bool_decide_eq_true_2 by apply list_elem_of_here.
    + by rewrite bool_decide_eq_true_2 by apply list_elem_of_here.
  - by rewrite lookup_insert_ne.
Qed.

Lemma scan_fields_reports cm items om x :
  (∀ k e, type_ cm !! k = Some e → ∃ t, e = Single t) →
  (∀ k, k ∈ items.*1 → is_Some (type_ cm !! k)) →
  reports cm om →
  fold_result (scan_field cm) items (Some om) = Ok x →
  ∃ om', x = Some om' ∧ reports cm om'.
Proof.
  intros Hsteady. revert om.
  induction items as [|[k v] items IH]; intros om Hcols Hom; simpl.
  { intros [= <-]. eauto. }
  unfold scan_field at 1. simpl.
  destruct (Hcols k) as [e Hk]; [apply elem_of_cons; by left|].
  destruct (Hsteady k e Hk) as [t ->].
  destruct (check_type cm k v) as [v'|] eqn:Hc; [|done].
  apply (check_type_established cm k v v' t Hk) in Hc as ->.
  apply IH.
  - intros k' Hin. apply Hcols, elem_of_cons. by right.
  - by apply report_type_reports.
Qed.

Lemma scan_rows_reports cm rs om x :
  (∀ k e, type_ cm !! k = Some e → ∃ t, e = Single t) →
  (∀ r k, r ∈ rs → k ∈ (parse_record r YType).1.*1 → is_Some (type_ cm !! k)) →
  reports cm om →
  fold_result (scan_record cm) rs (Some om) = Ok x →
  ∃ om', x = Some om' ∧ reports cm om'.
Proof.
  intros Hsteady. revert om.
  induction rs as [|r rs IH]; intros om Hcols Hom; simpl.
  { intros [= <-]. eauto. }
  unfold scan_record at 1.
  destruct (fold_result (scan_field cm) _ _) as [x'|] eqn:Hf; [|done].
  apply scan_fields_reports in Hf as (om' & -> & Hom'); try done.
  2:{ intros k Hin. apply (Hcols r k); [apply elem_of_cons; by left|done]. }
  destruct (parse_record r YType).2; [done|].
  case_bool_decide; [done|]. apply IH; [|done].
  intros r' k Hin. apply Hcols, elem_of_cons. by right.
Qed.

Lemma reports_collapse cm om :
  reports cm om → collapse_mapping om = cm.
Proof.
  intros (Hn & Hp & Ht). destruct cm as [ty nn pre]. simpl in *.
  unfold collapse_mapping. f_equal; [|done..].
  apply map_eq. intros k. by rewrite lookup_fmap.
Qed.

(** X12. When every class in the mapping is a single class, every column the
    stored records give has one, and the refresh passes, the report of
    [get_schema(refresh=True)] is the snapshot [get_schema(refresh=False)]
    returns: a scan of conforming rows reports nothing new, an Integer or
    Float met in a String column being counted as String. *)
Theorem report_of_conforming_table (self : XSchemaTable) :
  let cm := constraint_mapping self in
  (∀ k e, type_ cm !! k = Some e → ∃ t, e = Single t) →
  (∀ r k, r ∈ rows self → k ∈ (parse_record r YType).1.*1 →
          is_Some (type_ cm !! k)) →
  is_ok (refresh true self).1 = true →
  (get_schema true self).1 = (get_schema false self).1.
Proof.
  intros cm Hsteady Hcols Hok.
  assert (Hr : (refresh true self).1 = Ok (Some (ConstraintMapping_view cm))).
  { rewrite refresh_pure in Hok |- *. simpl in *. fold cm in Hok |- *.
    destruct (Table_all_ok base (rows self)); [|done].
    destruct (fold_result (scan_record cm) (rows self) (Some cm))
      as [x|] eqn:Hf; [|done].
    apply scan_rows_reports in Hf as (om' & -> & Hom'); try done.
    - by rewrite (reports_collapse cm om').
    - split_and!; [done..|]. intros k.
      destruct (type_ cm !! k) as [e|] eqn:Hk; [|done].
      by destruct (Hsteady k e Hk) as [t ->]. }
  unfold get_schema, bind, gets, ret.
  destruct (refresh true self) as [[[sn|]|e] s']; simpl in *; by simplify_eq.
Qed.

(** ** Further properties of the uniqueness bookkeeping *)

Lemma seen_remove_absent k v cm :
  (∀ seen, preexisting cm !! k = Some seen → v ∉ seen) →
  seen_remove k v cm = cm.
Proof.
  intros Habs. destruct cm as [ty nn pre]. unfold seen_remove. simpl in *.
  f_equal. apply map_eq. intros k'. rewrite lookup_alter.
  case_decide as Hk; [subst k'|done].
  destruct (pre !! k) as [seen|] eqn:Hs; [|done]. simpl. f_equal.
  apply difference_disjoint_L, disjoint_singleton_r. by apply Habs.
Qed.

Lemma seen_remove_add k v cm seen :
  preexisting cm !! k = Some seen → v ∉ seen →
  seen_remove k v (seen_add k v cm) = cm.
Proof.
  intros Hk Hv. destruct cm as [ty nn pre]. unfold seen_remove, seen_add.
  simpl in *. f_equal. apply map_eq. intros k'.
  destruct (decide (k = k')) as [<-|Hkk].
  2:{ by rewrite !lookup_alter, !decide_False. }
  rewrite !lookup_alter, !decide_True by done.
  rewrite Hk. simpl. f_equal. apply set_eq. intros x.
  rewrite elem_of_difference, elem_of_union, elem_of_singleton.
  split; [intros [[?|?] ?]; done|]. intros Hx. split; [by right|].
  by intros ->.
Qed.

Lemma seen_remove_comm k v k' v' cm :
  seen_remove k v (seen_remove k' v' cm)
  = seen_remove k' v' (seen_remove k v cm).
Proof.
  unfold seen_remove. simpl. f_equal. apply map_eq. intros j.
  destruct (decide (k = j)) as [->|Hk], (decide (k' = j)) as [->|Hk'];
    repeat (rewrite lookup_alter_eq || rewrite lookup_alter_ne by done);
    try done.
  destruct (preexisting cm !! j) as [seen|]; simpl; [|done].
  f_equal. apply set_eq. intros x. rewrite !elem_of_difference. tauto.
Qed.


(** The removal loop tests before it removes, but removing an absent entry
    changes nothing: the loop is a plain fold of removals. *)
Lemma seen_after_remove_foldl cm items :
  seen_after_remove cm items
  = foldl (λ cm kv, seen_remove kv.1 kv.2 cm) cm items.
Proof.
  revert cm. induction items as [|[k v] items IH]; intros cm; simpl; [done|].
  destruct (preexisting cm !! k) as [seen|] eqn:Hk.
  - case_bool_decide as Hv; [apply IH|].
    rewrite IH. f_equal. symmetry. apply seen_remove_absent.
    intros seen'. rewrite Hk. by intros [= <-].
  - rewrite IH. f_equal. symmetry. apply seen_remove_absent.
    intros seen'. by rewrite Hk.
Qed.

Lemma foldl_seen_remove_comm k v cm items :
  foldl (λ cm kv, seen_remove kv.1 kv.2 cm) (seen_remove k v cm) items
  = seen_remove k v (foldl (λ cm kv, seen_remove kv.1 kv.2 cm) cm items).
Proof.
  revert cm. induction items as [|[k' v'] items IH]; intros cm; simpl; [done|].
  by rewrite seen_remove_comm, IH.
Qed.

Lemma seen_after_update_undone cm items cm1 :
  seen_after_update cm items = (cm1, None) → seen_after_remove cm1 items = cm.
Proof.
  rewrite seen_after_remove_foldl.
  revert cm. induction items as [|[k v] items IH]; intros cm; simpl.
  { by intros [= <-]. }
  destruct (preexisting cm !! k) as [seen|] eqn:Hk.
  - case_bool_decide as Hv; [done|]. intros Hu.
    rewrite foldl_seen_remove_comm, (IH _ Hu).
    by apply (seen_remove_add k v cm seen).
  - intros Hu. rewrite foldl_seen_remove_comm, (IH _ Hu).
    apply seen_remove_absent. intros seen. by rewrite Hk.
Qed.

(** X13. The removal loop undoes the check: when [_update_uniqueness] has
    accepted a record, [_remove_uniqueness] on the same record raises
    nothing and gives back the table exactly as it was before the check,
    every seen-set included. *)
Theorem remove_undoes_update (row : record) (self self1 : XSchemaTable) :
  _update_uniqueness row self = (Ok tt, self1) →
  _remove_uniqueness row self1 = (Ok tt, self).
Proof.
  intros Hu.
  rewrite _update_uniqueness_pure in Hu. unfold uniqueness_check in Hu.
  destruct (seen_after_update _ _) as [cm1 [e|]] eqn:Hs; simpl in Hu; [done|].
  destruct (parse_record row YType).2 eqn:Hstop; simpl in Hu; [done|].
  injection Hu as <-.
  rewrite _remove_uniqueness_pure, Hstop. simpl.
  rewrite (seen_after_update_undone _ _ _ Hs). by destruct self.
Qed.



Lemma seen_after_update_untracked cm items :
  (∀ k, k ∈ items.*1 → preexisting cm !! k = None) →
  seen_after_update cm items = (cm, None).
Proof.
  induction items as [|[k v] items IH]; intros Hun; simpl; [done|].
  rewrite (Hun k) by (apply elem_of_cons; by left).
  apply IH. intros k' Hin. apply Hun, elem_of_cons. by right.
Qed.

(** X15. For a record that parses and none of whose yielded columns is tracked
    for uniqueness (as when no column is), [insert] and [update] are the
    base class's: the call is delegated on the table as it is, and its
    outcome and rows are the result. *)
Theorem untracked_write_is_delegated (row : record) (self : XSchemaTable) :
  parses row = true →
  (∀ k, k ∈ (parse_record row YType).1.*1 →
        preexisting (constraint_mapping self) !! k = None) →
  insert row self = super (CallInsert row) (Table_insert base row) self
  ∧ (∀ keys, update row keys self
             = super (CallUpdate row) (Table_update base row keys) self).
Proof.
  intros Hp%bool_decide_eq_true Hun.
  assert (Hw : ∀ c method,
    (_update_uniqueness row ;;; super c method) self = super c method self).
  { intros c method. rewrite write_pure. unfold uniqueness_check.
    rewrite (seen_after_update_untracked _ _ Hun), Hp. simpl.
    by rewrite with_mapping_id. }
  split; [|intros keys]; apply Hw.
Qed.

(** X16. The three outcomes of a write path, here [insert]. Either the check
    accepts the record, and then the call is delegated once, after the
    check, its outcome and rows are the result, and every entry the record
    yields in a tracked column was new to its seen-set and is in it
    afterwards; or the insert raises [NotUniqueException] for an entry the
    record yields; or it raises the [ValueError] or [OverflowError] the
    parse of the record ends with. In the last two nothing has reached
    storage: the rows and the calls are as they were. And a record that
    yields an entry already in its column's seen-set is never delegated.
    [insert] checks neither classes nor required columns. *)
Theorem insert_outcomes (row : record) (self : XSchemaTable) :
  let cm := constraint_mapping self in
  let items := (parse_record row YType).1 in
  let after := insert row self in
  let delegated := Table_insert base row (rows self) in
  (((_update_uniqueness row self).1 = Ok tt
    ∧ after.1 = delegated.1
    ∧ rows after.2 = delegated.2
    ∧ calls after.2 = calls self ++ [CallInsert row]
    ∧ ∀ k v seen, (k, v) ∈ items → preexisting cm !! k = Some seen →
        (v ∉ seen)
        ∧ ∃ seen', preexisting (constraint_mapping after.2) !! k = Some seen'
                   ∧ v ∈ seen')
   ∨ (∃ v k, after.1 = Raise (NotUniqueException v k)
             ∧ (k, v) ∈ items
             ∧ rows after.2 = rows self
             ∧ calls after.2 = calls self)
   ∨ (∃ e, (e = ValueError ∨ e = OverflowError)
           ∧ (parse_record row YType).2 = Some e
           ∧ after.1 = Raise e
           ∧ rows after.2 = rows self
           ∧ calls after.2 = calls self))
  ∧ (∀ k v seen, (k, v) ∈ items → preexisting cm !! k = Some seen → v ∈ seen →
       ∃ v' k', after.1 = Raise (NotUniqueException v' k')
                ∧ rows after.2 = rows self
                ∧ calls after.2 = calls self).
Proof.
  intros cm items after delegated. split.
  - destruct (_update_uniqueness row self).1 as [[]|e] eqn:Hc.
    + left. destruct (check_accepts row self Hc) as [Hstop Hu].
      unfold after, insert. rewrite (write_accepted _ _ _ _ Hc).
      split; [done|].
      destruct (super_outcome (CallInsert row) (Table_insert base row)
                  (with_mapping self (uniqueness_check cm row).1))
        as (H1 & H2 & H3).
      split_and!; [done..|].
      intros k v seen Hin Hk. split.
      { by eapply seen_after_update_new. }
      rewrite super_mapping. simpl.
      eapply seen_after_update_kept; [done..|]. apply elem_of_dom. eauto.
    + right.
      destruct (write_rejected row (CallInsert row) (Table_insert base row)
                  self e Hc) as [Hrej Hwhy].
      unfold after, insert. rewrite Hrej.
      destruct Hwhy as [(v & k & -> & Hkv)|[He Hstop]].
      * left. by exists v, k.
      * right. by exists e.
  - intros k v seen Hin Hk Hv.
    destruct (claimed_entry_rejected row (CallInsert row)
                (Table_insert base row) self k v seen Hin Hk Hv)
      as (k' & v' & cm1 & Hrej).
    exists v', k'. unfold after, insert. by rewrite Hrej.
Qed.

Lemma seen_after_batch_app cm rs1 rs2 :
  seen_after_batch cm (rs1 ++ rs2)
  = match (seen_after_batch cm rs1).2 with
    | Some e => seen_after_batch cm rs1
    | None => seen_after_batch (seen_after_batch cm rs1).1 rs2
    end.
Proof.
  revert cm. induction rs1 as [|r rs1 IH]; intros cm; simpl; [done|].
  destruct (match (seen_after_update cm (parse_record r YType).1).2 with
            | Some e => Some e
            | None => (parse_record r YType).2
            end); simpl; [done|].
  apply IH.
Qed.

(** What an accepted batch tells about its rows. *)
Lemma seen_after_batch_accepted cm rs cm' r k v :
  seen_after_batch cm rs = (cm', None) →
  r ∈ rs → (k, v) ∈ (parse_record r YType).1 →
  (parse_record r YType).2 = None
  ∧ ∀ seen, preexisting cm !! k = Some seen →
      (v ∉ seen) ∧ ∃ seen', preexisting cm' !! k = Some seen' ∧ v ∈ seen'.
Proof.
  revert cm. induction rs as [|r0 rs IH]; intros cm; simpl.
  { by intros _ ?%elem_of_nil. }
  destruct (seen_after_update cm (parse_record r0 YType).1)
    as [cm1 [e|]] eqn:Hu; simpl; [done|].
  destruct (parse_record r0 YType).2 as [e|] eqn:Hstop; simpl; [done|].
  intros Hb [->|Hin]%elem_of_cons Hkv.
  - split; [done|]. intros seen Hk. split.
    { by eapply seen_after_update_new. }
    destruct (seen_after_update_kept _ _ _ Hu k v Hkv) as (seen1 & Hk1 & Hv1).
    { apply elem_of_dom. eauto. }
    destruct (seen_after_batch_grows cm1 rs) as (_ & _ & Hd & Hs).
    rewrite Hb in Hd, Hs. simpl in Hd, Hs.
    assert (Hk' : k ∈ dom (preexisting cm')).
    { rewrite Hd. apply elem_of_dom. eauto. }
    apply elem_of_dom in Hk' as [seen' Hk']. exists seen'. split; [done|].
    by apply (Hs k seen1 seen' Hk1 Hk').
  - destruct (IH cm1 Hb Hin Hkv) as [Hp Hnew]. split; [done|].
    intros seen Hk.
    pose proof (seen_after_update_grows cm (parse_record r0 YType).1) as Hg.
    rewrite Hu in Hg. destruct Hg as (_ & _ & Hd & Hs). simpl in Hd, Hs.
    assert (Hk1 : k ∈ dom (preexisting cm1)).
    { rewrite Hd. apply elem_of_dom. eauto. }
    apply elem_of_dom in Hk1 as [seen1 Hk1].
    destruct (Hnew seen1 Hk1) as [Hv Hafter]. split; [|done].
    intros Hv0. apply Hv. by apply (Hs k seen seen1 Hk Hk1).
Qed.

(** What the batch check stops with. *)
Lemma seen_after_batch_rejected cm rs cm' e :
  seen_after_batch cm rs = (cm', Some e) →
  ∃ r, r ∈ rs
       ∧ ((∃ v k, e = NotUniqueException v k ∧ (k, v) ∈ (parse_record r YType).1)
          ∨ ((e = ValueError ∨ e = OverflowError)
             ∧ (parse_record r YType).2 = Some e)).
Proof.
  revert cm. induction rs as [|r0 rs IH]; intros cm; simpl; [done|].
  destruct (seen_after_update cm (parse_record r0 YType).1)
    as [cm1 [e'|]] eqn:Hu; simpl.
  - intros [= <- <-]. exists r0. split; [apply elem_of_cons; by left|]. left.
    apply seen_after_update_exn in Hu
      as (before & aft & k & v & -> & Hitems & _).
    exists v, k. split; [done|]. rewrite Hitems. apply elem_of_app. right.
    apply elem_of_cons. by left.
  - destruct (parse_record r0 YType).2 as [e'|] eqn:Hstop; simpl.
    + intros [= <- <-]. exists r0. split; [apply elem_of_cons; by left|].
      right. split; [|done]. by eapply parse_record_stop_exn.
    + intros (r & Hin & H)%IH. exists r. split; [|done].
      apply elem_of_cons. by right.
Qed.

(** X17. The three outcomes of [insert_many]. It checks every row before it
    delegates anything. Either every row is accepted, and then the whole
    batch is handed to the base class in one call, every row parses and
    every entry a row yields in a tracked column was new to its seen-set
    and is in it afterwards; or a row is rejected with [NotUniqueException]
    for an entry it yields; or the parse of a row ends with a [ValueError]
    or an [OverflowError]. In the last two storage has not been called at
    all, not even for the rows checked before. And a batch in which a later
    row yields an entry of an earlier row in a tracked column is never
    delegated. *)
Theorem insert_many_outcomes (rs : list record) (self : XSchemaTable) :
  let cm := constraint_mapping self in
  let after := insert_many rs self in
  let delegated := Table_insert_many base rs (rows self) in
  ((after.1 = delegated.1
    ∧ rows after.2 = delegated.2
    ∧ calls after.2 = calls self ++ [CallInsertMany rs]
    ∧ ∀ r k v, r ∈ rs → (k, v) ∈ (parse_record r YType).1 →
        (parse_record r YType).2 = None
        ∧ ∀ seen, preexisting cm !! k = Some seen →
            (v ∉ seen)
            ∧ ∃ seen', preexisting (constraint_mapping after.2) !! k = Some seen'
                       ∧ v ∈ seen')
   ∨ (∃ r v k, r ∈ rs ∧ (k, v) ∈ (parse_record r YType).1
               ∧ after.1 = Raise (NotUniqueException v k)
               ∧ rows after.2 = rows self
               ∧ calls after.2 = calls self)
   ∨ (∃ r e, r ∈ rs ∧ (e = ValueError ∨ e = OverflowError)
             ∧ (parse_record r YType).2 = Some e
             ∧ after.1 = Raise e
             ∧ rows after.2 = rows self
             ∧ calls after.2 = calls self))
  ∧ (∀ pre r1 mid r2 post k v,
       rs = pre ++ r1 :: mid ++ r2 :: post →
       (k, v) ∈ (parse_record r1 YType).1 →
       (k, v) ∈ (parse_record r2 YType).1 →
       k ∈ dom (preexisting cm) →
       is_ok after.1 = false
       ∧ rows after.2 = rows self
       ∧ calls after.2 = calls self).
Proof.
  intros cm after delegated.
  assert (Hrun : after
    = match (seen_after_batch cm rs).2 with
      | Some e => (Raise e, with_mapping self (seen_after_batch cm rs).1)
      | None => super (CallInsertMany rs) (Table_insert_many base rs)
                  (with_mapping self (seen_after_batch cm rs).1)
      end).
  { unfold after, insert_many. unfold bind at 1.
    rewrite for_each_update_pure. fold cm.
    by destruct (seen_after_batch cm rs).2. }
  split.
  - destruct (seen_after_batch cm rs) as [cm1 [e|]] eqn:Hb; simpl in Hrun.
    + right. apply seen_after_batch_rejected in Hb
        as (r & Hin & [(v & k & -> & Hkv)|[He Hstop]]).
      * left. exists r, v, k. by rewrite Hrun.
      * right. exists r, e. by rewrite Hrun.
    + left. rewrite Hrun.
      destruct (super_outcome (CallInsertMany rs) (Table_insert_many base rs)
                  (with_mapping self cm1)) as (H1 & H2 & H3).
      split_and!; [done..|].
      intros r k v Hin Hkv. rewrite super_mapping. simpl.
      by eapply seen_after_batch_accepted.
  - intros pre r1 mid r2 post k v -> Hkv1 Hkv2 Hdom.
    destruct (seen_after_batch cm (pre ++ r1 :: mid ++ r2 :: post))
      as [cm1 [e|]] eqn:Hb; simpl in Hrun.
    { by rewrite Hrun. }
    exfalso.
    rewrite seen_after_batch_app in Hb.
    destruct (seen_after_batch cm pre) as [cm2 [e|]] eqn:Hpre;
      cbn [fst snd] in Hb; [done|].
    change (r1 :: mid ++ r2 :: post) with ([r1] ++ (mid ++ r2 :: post)) in Hb.
    rewrite app_assoc, seen_after_batch_app in Hb.
    destruct (seen_after_batch cm2 ([r1] ++ mid)) as [cm3 [e|]] eqn:Hmid;
      cbn [fst snd] in Hb; [done|].
    destruct (seen_after_batch_grows cm pre) as (_ & _ & Hd & _).
    rewrite Hpre in Hd. simpl in Hd.
    assert (Hk2 : k ∈ dom (preexisting cm2)) by by rewrite Hd.
    apply elem_of_dom in Hk2 as [seen2 Hk2].
    destruct (seen_after_batch_accepted cm2 ([r1] ++ mid) cm3 r1 k v Hmid)
      as [_ Hin1]; [apply elem_of_app; left; apply list_elem_of_here|done|].
    destruct (Hin1 seen2 Hk2) as (_ & seen3 & Hk3 & Hv3).
    destruct (seen_after_batch_accepted cm3 (r2 :: post) cm1 r2 k v Hb)
      as [_ Hin2]; [apply list_elem_of_here|done|].
    by destruct (Hin2 seen3 Hk3) as [Hnot _].
Qed.

(** X18. [delete] takes out of the seen-sets only what the matched records
    carry: an entry of a seen-set that no stored record matched by the
    filter yields in that column is still there after the delete, whatever
    the search, the removal and the refresh did. With no record matched,
    the seen-sets are as they were. *)
Theorem delete_keeps_other_entries (filters : record → bool)
  (self : XSchemaTable) (k : string) (v : pyobj) (seen : gset pyobj) :
  preexisting (constraint_mapping self) !! k = Some seen →
  v ∈ seen →
  (∀ r, r ∈ rows self → filters r = true →
        (k, v) ∉ (parse_record r YType).1) →
  ∃ seen', preexisting (constraint_mapping (delete filters self).2) !! k
           = Some seen'
           ∧ v ∈ seen'.
Proof. apply delete_keeps. Qed.

(** X19. Once the check has accepted a record, its entries stay claimed whatever
    storage then did with the write: on the table the insert leaves, every
    single-row write method given a record that yields one of those entries
    in a tracked column raises [NotUniqueException], and the stored rows
    are not touched. *)
Theorem accepted_entry_blocks_writes (row row' : record) (self : XSchemaTable)
  (k : string) (v : pyobj) :
  (_update_uniqueness row self).1 = Ok tt →
  (k, v) ∈ (parse_record row YType).1 →
  k ∈ dom (preexisting (constraint_mapping self)) →
  (k, v) ∈ (parse_record row' YType).1 →
  let self1 := (insert row self).2 in
  ∃ k' v',
    (insert row' self1).1 = Raise (NotUniqueException v' k')
    ∧ rows (insert row' self1).2 = rows self1
    ∧ ∀ keys,
        (insert_ignore row' keys self1).1 = Raise (NotUniqueException v' k')
        ∧ (update row' keys self1).1 = Raise (NotUniqueException v' k')
        ∧ (upsert row' keys self1).1 = Raise (NotUniqueException v' k')
        ∧ rows (update row' keys self1).2 = rows self1.
Proof.
  intros Hok Hin Hdom Hin' self1.
  assert (Hcm : constraint_mapping self1
                = (uniqueness_check (constraint_mapping self) row).1).
  { exact (write_mapping _ _ _ _). }
  destruct (check_accepts row self Hok) as [_ Hu].
  destruct (seen_after_update_kept _ _ _ Hu k v Hin Hdom) as (seen & Hk & Hv).
  rewrite <- Hcm in Hk.
  destruct (seen_after_update_dup _ (parse_record row' YType).1 k v seen
              Hin' Hk Hv) as (k' & v' & cm' & Hdup).
  assert (Hw : ∀ c method,
    (_update_uniqueness row' ;;; super c method) self1
    = (Raise (NotUniqueException v' k'), with_mapping self1 cm')).
  { intros c method. rewrite write_pure. unfold uniqueness_check.
    by rewrite Hdup. }
  exists k', v'. unfold insert, insert_ignore, update, upsert.
  rewrite !Hw. split_and!; [done..|]. intros keys. by rewrite !Hw.
Qed.

(** X22. Insert, then delete exactly that record: when the check accepted the
    record, the search of the delete succeeds and its filter matches, among
    the rows then stored, that record alone, the seen-sets after the delete
    are those from before the insert, whatever the base class did with
    either write. *)
Theorem delete_after_insert_restores (row : record) (filters : record → bool)
  (self : XSchemaTable) :
  (_update_uniqueness row self).1 = Ok tt →
  Table_find_ok base filters (rows (insert row self).2) = true →
  filter (λ r, filters r = true) (rows (insert row self).2) = [row] →
  constraint_mapping (delete filters (insert row self).2).2
  = constraint_mapping self.
Proof.
  intros Hok Hfind Hfound. rewrite delete_mapping, Hfind, Hfound. simpl.
  destruct (check_accepts row self Hok) as [-> Hu]. simpl.
  unfold insert. rewrite write_mapping, Hu. simpl.
  by apply seen_after_update_undone.
Qed.

(** X24. What [delete] does when it does not reach the removal. The search and
    the removal loop come before the [try]: when the search raises, the
    delete raises that, with the table as it was; when a found record does
    not parse, the delete raises what its parse ends with, the entries of
    the found records before it and of its own fields yielded until then
    having been taken out of the seen-sets. In both cases the stored rows
    are as they were and neither the removal nor the refresh is called. *)
Theorem delete_stops_before_removal (filters : record → bool)
  (self : XSchemaTable) :
  (Table_find_ok base filters (rows self) = false →
     delete filters self = (Raise StorageError, searched self))
  ∧ (Table_find_ok base filters (rows self) = true →
     ∀ pre r post e,
       filter (λ r, filters r = true) (rows self) = pre ++ r :: post →
       forallb parses pre = true →
       (parse_record r YType).2 = Some e →
       (delete filters self).1 = Raise e
       ∧ rows (delete filters self).2 = rows self
       ∧ calls (delete filters self).2 = calls self ++ [CallFind]
       ∧ constraint_mapping (delete filters self).2
         = seen_after_delete (constraint_mapping self) (pre ++ [r])).
Proof.
  split; intros Hfind; rewrite delete_pure, Hfind; [done|].
  intros pre r post e Hfound Hpre Hstop. rewrite Hfound. cbv zeta.
  assert (Hloop : removal_loop (constraint_mapping self) (pre ++ r :: post)
                  = (seen_after_delete (constraint_mapping self) (pre ++ [r]),
                     Some e)).
  { clear Hfound. revert Hpre. generalize (constraint_mapping self) as cm.
    induction pre as [|r0 pre IH]; intros cm; simpl.
    - intros _. by rewrite Hstop.
    - intros [Hr0%bool_decide_eq_true Hpre]%andb_true_iff. rewrite Hr0.
      by apply IH. }
  by rewrite Hloop.
Qed.

(** ** Properties of the sanitizer *)

(** X20. [_sanitize_multiple] is gated twice. With the sanitize flag off it
    returns the batch and touches nothing: no refresh runs and the mapping
    learns nothing. With the flag on it refreshes first, so when the stored
    table fails its refresh that exception is the outcome, whatever the
    batch, and the mapping is as it was. *)
Theorem sanitize_gates (records : list record) (self : XSchemaTable) :
  (XSCHEMA_SANITIZE = false →
     _sanitize_multiple records self = (Ok (unmodified records), self))
  ∧ (XSCHEMA_SANITIZE = true →
     ∀ e, (refresh false self).1 = Raise e →
          _sanitize_multiple records self = (Raise e, after_refresh self)).
Proof.
  unfold _sanitize_multiple. split; intros ->; [done|].
  intros e He. unfold bind at 1.
  pose proof (refresh_state false self) as Hs.
  destruct (refresh false self) as [[o|e'] s']; simpl in *; [done|].
  by simplify_eq.
Qed.

Lemma dict_set_elem {A} (k : string) (v : A) d k' v' :
  (k', v') ∈ dict_set k v d → (k', v') = (k, v) ∨ (k', v') ∈ d.
Proof.
  induction d as [|[k0 v0] d IH]; simpl.
  { intros ?%list_elem_of_singleton. by left. }
  destruct (decide (k = k0)) as [->|].
  - intros [?|?]%elem_of_cons; [by left|]. right. apply elem_of_cons. by right.
  - intros [?|[?|?]%IH]%elem_of_cons.
    + right. apply elem_of_cons. by left.
    + by left.
    + right. apply elem_of_cons. by right.
Qed.

Lemma dict_elem {A} (g : generator (string * A)) d k v :
  dict g = Ok d → (k, v) ∈ d → (k, v) ∈ g.1.
Proof.
  unfold dict. destruct g as [items [e|]]; simpl; [done|]. intros [= <-].
  assert (H : ∀ acc : list (string * A),
    (k, v) ∈ foldl (λ d kv, dict_set kv.1 kv.2 d) acc items →
    (k, v) ∈ acc ∨ (k, v) ∈ items).
  { induction items as [|[k0 v0] items IH]; intros acc; simpl; [by left|].
    intros [[->|?]%dict_set_elem|?]%IH.
    - right. apply elem_of_cons. by left.
    - by left.
    - right. apply elem_of_cons. by right. }
  intros [[]%elem_of_nil|?]%H. done.
Qed.

(** X21. What [_records] yields for a record, when it raises nothing, holds
    no value of the record: under each key is the class of the field, or,
    for a numeric field met in a String column, the text of that class. *)
Theorem sanitized_record_holds_classes (record : record)
  (self self' : XSchemaTable) (sanitized : list (string * pyobj)) :
  _records_step record self = (Ok sanitized, self') →
  Forall (λ kx, ∃ t, (kx.1, OType t) ∈ (parse_record record YType).1
                     ∧ (kx.2 = OType t
                        ∨ kx.2 = OValue (VStr (str_of_type t))))
    sanitized.
Proof.
  unfold _records_step. unfold bind at 1, lift at 1.
  destruct (dict (parse_record record YType)) as [d|e] eqn:Hd; [|done].
  unfold bind at 1.
  destruct (foldM _ d ∅ self) as [[nts|e] s1]; [|done].
  unfold bind, lift, ret. intros [= <- <-].
  apply Forall_forall. intros [k x] Hin.
  apply list_elem_of_fmap in Hin as ([k0 v0] & Heq & Hin).
  apply (dict_elem _ _ _ _ Hd) in Hin as Hin'.
  destruct (parse_record_type_class _ _ _ Hin') as [t ->].
  exists t. case_bool_decide; injection Heq as -> ->; simpl; auto.
Qed.
End Engine.

(** ** The properties on concrete tables *)

(** The engine over the concrete surroundings: the stand-ins for the text
    methods and the libraries, the normalize-datetime flag on. *)
Definition demo_parse_record : record → yield_mode → generator (string * pyobj) :=
  parse_record Standin.strip Standin.nfkd Standin.isdigit Standin.int_
    Standin.float_ Standin.parse Standin.isoformat true.

Definition demo_missing : ConstraintMapping → record → gset string :=
  missing Standin.strip Standin.nfkd Standin.isdigit Standin.int_
    Standin.float_ Standin.parse Standin.isoformat true.

Definition demo_init (stored : list record) : XSchemaTable :=
  (XSchemaTable_init Standin.strip Standin.nfkd Standin.isdigit Standin.int_
     Standin.float_ Standin.parse Standin.isoformat true mem_table stored).2.

Definition demo_declare (schema_dict : list (string * declaration))
  (self : XSchemaTable) : XSchemaTable :=
  (set_schema schema_dict self).2.

Definition demo_refresh (base : Table)
  : bool → M (option (gmap string Constraint)) :=
  refresh Standin.strip Standin.nfkd Standin.isdigit Standin.int_
    Standin.float_ Standin.parse Standin.isoformat true base.

Definition demo_check : record → M unit :=
  _update_uniqueness Standin.strip Standin.nfkd Standin.isdigit Standin.int_
    Standin.float_ Standin.parse Standin.isoformat true.

Definition demo_uncheck : record → M unit :=
  _remove_uniqueness Standin.strip Standin.nfkd Standin.isdigit Standin.int_
    Standin.float_ Standin.parse Standin.isoformat true.

Definition demo_insert (base : Table) : record → M value :=
  insert Standin.strip Standin.nfkd Standin.isdigit Standin.int_
    Standin.float_ Standin.parse Standin.isoformat true base.

Definition demo_insert_ignore (base : Table) : record → list string → M value :=
  insert_ignore Standin.strip Standin.nfkd Standin.isdigit Standin.int_
    Standin.float_ Standin.parse Standin.isoformat true base.

Definition demo_insert_many (base : Table) : list record → M value :=
  insert_many Standin.strip Standin.nfkd Standin.isdigit Standin.int_
    Standin.float_ Standin.parse Standin.isoformat true base.

Definition demo_update (base : Table) : record → list string → M value :=
  update Standin.strip Standin.nfkd Standin.isdigit Standin.int_
    Standin.float_ Standin.parse Standin.isoformat true base.

Definition demo_upsert (base : Table) : record → list string → M value :=
  upsert Standin.strip Standin.nfkd Standin.isdigit Standin.int_
    Standin.float_ Standin.parse Standin.isoformat true base.

Definition demo_delete (base : Table) : (record → bool) → M value :=
  delete Standin.strip Standin.nfkd Standin.isdigit Standin.int_
    Standin.float_ Standin.parse Standin.isoformat true base.

Definition demo_get_schema (base : Table) : bool → M (gmap string Constraint) :=
  get_schema Standin.strip Standin.nfkd Standin.isdigit Standin.int_
    Standin.float_ Standin.parse Standin.isoformat true base.

Definition demo_sanitize (XSCHEMA_SANITIZE : bool)
  : list record → M (list (list (string * pyobj))) :=
  _sanitize_multiple Standin.strip Standin.nfkd Standin.isdigit Standin.int_
    Standin.float_ Standin.parse Standin.isoformat true XSCHEMA_SANITIZE
    Standin.str_value mem_table.

Definition demo_records_step : record → M (list (string * pyobj)) :=
  _records_step Standin.strip Standin.nfkd Standin.isdigit Standin.int_
    Standin.float_ Standin.parse Standin.isoformat true Standin.str_value.

Definition demo_column_values : list record → string → gset pyobj :=
  column_values Standin.strip Standin.nfkd Standin.isdigit Standin.int_
    Standin.float_ Standin.parse true.

Definition demo_seen_in_sync : XSchemaTable → Prop :=
  seen_in_sync Standin.strip Standin.nfkd Standin.isdigit Standin.int_
    Standin.float_ Standin.parse true.

(** A column marked unique, and a column marked required. *)
Definition unique_column : declaration := DeclConstraint None true false.
Definition required_column : declaration := DeclConstraint None false true.

(** The one-character text U+19DA, NEW TAI LUE THAM DIGIT ONE, in UTF-8: a
    digit for [isdigit], not a decimal for [int]. *)
Definition tham_digit_one : string :=
  String "225" (String "167" (String "154" EmptyString)).

(** A text of 5000 digits, over the limit of [int]. *)
Definition digits_5000 : string := string_of_list_ascii (repeat "1"%char 5000).

(** A text whose year no datetime can hold. *)
Definition year_out_of_range : string := "1000000000000000000000000000000 AD".

Ltac by_compute :=
  lazymatch goal with
  | |- ?P => apply (bool_decide_unpack P); vm_compute; exact I
  end.

(** A property of the engine, taken over the concrete surroundings. *)
Notation "'on_standins' f" :=
  (f Standin.strip Standin.nfkd Standin.isdigit Standin.int_ Standin.float_
     Standin.parse Standin.isoformat true)
  (at level 10, f at level 9, only parsing).

(** The stand-in for [strip] leaves a trimmed text as it is. *)
Lemma lstrip_head (s : string) :
  Standin.lstrip s = ""
  ∨ ∃ c s', Standin.lstrip s = String c s' ∧ Standin.isspace_char c = false.
Proof.
  induction s as [|c s IH]; simpl; [by left|].
  destruct (Standin.isspace_char c) eqn:Hc; [done|]. right. eauto.
Qed.

Lemma rstrip_idem (s : string) :
  Standin.rstrip (Standin.rstrip s) = Standin.rstrip s.
Proof.
  induction s as [|c s IH]; simpl; [done|].
  destruct (Standin.isspace_char c && Standin.is_empty (Standin.rstrip s))
    eqn:Hc; simpl; [done|].
  by rewrite IH, Hc.
Qed.

Lemma strip_idem (s : string) :
  Standin.strip (Standin.strip s) = Standin.strip s.
Proof.
  unfold Standin.strip. destruct (lstrip_head s) as [->|(c & s' & -> & Hc)].
  { done. }
  assert (Hr : Standin.rstrip (String c s') = String c (Standin.rstrip s')).
  { simpl. by rewrite Hc. }
  rewrite Hr. simpl Standin.lstrip. rewrite Hc, <- Hr. apply rstrip_idem.
Qed.

(** C1 at failing inputs. A field that holds U+19DA, for which [isdigit()]
    holds and which [int] refuses, ends the generator with a [ValueError];
    so does a field of 5000 digits, and the field after it is not reached;
    a field whose text the date parser reads as a year out of range ends it
    with an [OverflowError]. None of the three is given a class. *)
Lemma parse_record_raises_witness :
  demo_parse_record [("a", VStr tham_digit_one)] YType
  = ([], Some ValueError)
  ∧ demo_parse_record [("a", VStr digits_5000); ("b", VStr "x")] YType
    = ([], Some ValueError)
  ∧ demo_parse_record [("a", VStr year_out_of_range)] YRecord
    = ([], Some OverflowError).
Proof.
  split_and!.
  - apply (proj1 ((on_standins parse_record_raises) eq_refl
                    "a" tham_digit_one [] YType)); reflexivity.
  - apply (proj1 ((on_standins parse_record_raises) eq_refl
                    "a" digits_5000 [("b", VStr "x")] YType));
      vm_compute; reflexivity.
  - apply (proj2 (proj2 ((on_standins parse_record_raises) eq_refl
                           "a" year_out_of_range [] YRecord)));
      try reflexivity; discriminate.
Defined.

(** C2 on the spec's scenario: the column [age] is established as Integer
    and the first stored record has ["young"] in it. *)
Lemma refresh_type_conflict_witness :
  ∃ v x, (demo_refresh mem_table false
            (demo_declare [("age", DeclType TInt)]
               (demo_init [[("age", VStr "young")]]))).1
         = Raise (NonUniformTypeException v x).
Proof.
  apply (proj2 ((on_standins refresh_type_conflict) mem_table _ false)
           [] [("age", VStr "young")] [] "age" TStr TInt).
  - reflexivity.
  - reflexivity.
  - reflexivity.
  - by_compute.
  - reflexivity.
  - discriminate.
  - intros [H _]. discriminate H.
Defined.

(** C3 at a failing input. The column [id] is tracked and the table empty.
    After the record with id ["1"] is inserted, the seen-set of [id] holds
    the class [int] and nothing else, not the value 1; the same record is
    then rejected, and so is a record with the different id ["2"], alone or
    as the second row of one batch. *)
Theorem seen_set_holds_classes :
  let s0 := demo_declare [("id", unique_column)] (demo_init []) in
  let s1 := demo_insert mem_table [("id", VStr "1")] s0 in
  s1.1 = Ok (VInt 1)
  ∧ preexisting (constraint_mapping s1.2) !! "id" = Some {[OType TInt]}
  ∧ (demo_insert mem_table [("id", VStr "1")] s1.2).1
    = Raise (NotUniqueException (OType TInt) "id")
  ∧ (demo_insert mem_table [("id", VStr "2")] s1.2).1
    = Raise (NotUniqueException (OType TInt) "id")
  ∧ (demo_insert_many mem_table [[("id", VStr "1")]; [("id", VStr "2")]] s0).1
    = Raise (NotUniqueException (OType TInt) "id").
Proof. cbv zeta. split_and!; by_compute. Qed.

(** C4 as stated fails. First, [a] is established as Integer, [b] is
    required, and the only stored record gives [a] as ["x"] and has no [b]:
    column [b] is missing from the rendered view, yet refresh raises the
    type conflict of [a], found first, and no null violation. Second, with
    the normalize-datetime flag off an empty string is kept as a String, so
    a record that gives the required [b] as [""] passes the refresh. *)
Lemma null_violation_not_raised :
  let r := [("a", VStr "x")] in
  let s := demo_declare [("a", DeclType TInt); ("b", required_column)]
             (demo_init [r]) in
  let s' := demo_declare [("b", required_column)]
              (demo_init [[("b", VStr "")]]) in
  (demo_missing (constraint_mapping s) r = {["b"]}
   ∧ (demo_refresh mem_table false s).1
     = Raise (NonUniformTypeException (OType TStr) (Single TInt)))
  ∧ (refresh Standin.strip Standin.nfkd Standin.isdigit Standin.int_
       Standin.float_ Standin.parse Standin.isoformat false mem_table
       false s').1
    = Ok None.
Proof. cbv zeta. split_and!; by_compute. Qed.

(** C4 on a record that gives the required column [b] as a lone hyphen. *)
Lemma refresh_null_violation_witness :
  let r := [("a", VStr "x"); ("b", VStr " - ")] in
  let s := demo_declare [("b", required_column)] (demo_init [r]) in
  "b" ∈ demo_missing (constraint_mapping s) r
  ∧ (demo_refresh mem_table false s).1
    = Raise (NotNullException (demo_missing (constraint_mapping s) r)).
Proof.
  intros r s.
  apply (proj2 ((on_standins refresh_null_violation) mem_table
                  eq_refl eq_refl s false [] r []
                  eq_refl eq_refl eq_refl eq_refl)
           eq_refl [("a", VStr "x")] "b" " - " []).
  - reflexivity.
  - by_compute.
  - by_compute.
  - right. reflexivity.
  - by_compute.
Defined.

(** C5 at a failing input. Column [a] is established as String and the
    table is empty; the batch is one record with [a] given as ["5"] and [b]
    as ["hello"]. The record returned holds, for [a], the text of the class
    [int], not the text of the value 5, and for [b] the class [str], not the
    value ["hello"]. With the flag off the batch comes back as it was. *)
Theorem sanitize_returns_classes :
  let s0 := demo_declare [("a", DeclType TStr)] (demo_init []) in
  let batch := [[("a", VStr "5"); ("b", VStr "hello")]] in
  (demo_sanitize true batch s0).1
  = Ok [[("a", OValue (VStr "<class 'int'>")); ("b", OType TStr)]]
  ∧ (demo_sanitize false batch s0).1
    = Ok [[("a", OValue (VStr "5")); ("b", OValue (VStr "hello"))]].
Proof. cbv zeta. split_and!; by_compute. Qed.

(** C6 at a failing input. The column [id] is tracked and the table empty;
    the record with id ["1"] is inserted and the storage accepts it. The
    table then stores the record, the column [id] holds the value 1, the
    seen-set of [id] holds the class [int], and the two differ. *)
Lemma accepted_write_breaks_sync_witness :
  let row := [("id", VStr "1")] in
  let s0 := demo_declare [("id", unique_column)] (demo_init []) in
  let s1 := demo_insert mem_table row s0 in
  s1.1 = Ok (VInt 1)
  ∧ rows s1.2 = [row]
  ∧ preexisting (constraint_mapping s1.2) !! "id" = Some {[OType TInt]}
  ∧ demo_column_values (rows s1.2) "id" = {[OValue (VInt 1)]}
  ∧ ¬ demo_seen_in_sync s1.2.
Proof.
  intros row s0 s1. split_and!; [by_compute..|].
  apply (proj2 (proj2 ((on_standins accepted_write_breaks_sync) mem_table
                         row s0 "id" (OType TInt)
                         eq_refl ltac:(by_compute) ltac:(by_compute)))).
Defined.


(** C8 as stated fails. The storage refuses the insert of id ["1"], which
    leaves the entry in the seen-set of [id] with no record stored; deleting
    the records whose id is ["1"] finds none and removes nothing from the
    seen-set; the insert of id ["1"] that follows is rejected. *)
Lemma stale_entry_survives_delete :
  let s0 := demo_declare [("id", unique_column)] (demo_init []) in
  let s1 := demo_insert down_table [("id", VStr "1")] s0 in
  let s2 := demo_delete mem_table (column_is "id" (VStr "1")) s1.2 in
  s1.1 = Raise StorageError
  ∧ preexisting (constraint_mapping s1.2) !! "id" = Some {[OType TInt]}
  ∧ s2.1 = Ok (VBool false)
  ∧ (demo_insert mem_table [("id", VStr "1")] s2.2).1
    = Raise (NotUniqueException (OType TInt) "id").
Proof. cbv zeta. split_and!; by_compute. Qed.

(** C8 on a stored record of two columns, [id] tracked: the record with id
    ["1"] is inserted, deleted by its id, and inserted again. *)
Lemma insert_after_delete_witness :
  let row := [("id", VStr "1"); ("name", VStr "x")] in
  let s0 := demo_declare [("id", unique_column)] (demo_init []) in
  let s1 := (demo_insert mem_table row s0).2 in
  let s2 := (demo_delete mem_table (column_is "id" (VStr "1")) s1).2 in
  (∀ seen, preexisting (constraint_mapping s2) !! "id" = Some seen →
           OType TInt ∉ seen)
  ∧ (demo_insert mem_table row s2).1 = Ok (VInt 1)
  ∧ calls (demo_insert mem_table row s2).2 = calls s2 ++ [CallInsert row].
Proof.
  intros row s0 s1 s2.
  destruct ((on_standins insert_after_delete) mem_table s1
              (column_is "id" (VStr "1")) row "id" (OType TInt)
              eq_refl eq_refl ltac:(by_compute) eq_refl ltac:(by_compute))
    as (Hgone & Hrow & _).
  split; [exact Hgone|].
  destruct (Hrow row ltac:(by_compute) ltac:(by_compute)) as (_ & Hdel & _).
  destruct (Hdel eq_refl) as (Hout & _ & Hcalls).
  split; [|exact Hcalls].
  refine (eq_trans Hout _). by_compute.
Defined.


(** C10 on a record of two tracked columns: the seen-set of [b] holds the
    class [str], and the record gives [a] as ["1"] and [b] as ["y"]. The
    check adds the entry of [a], then rejects the record at [b]; the entry
    of [a], absent before, is in the state the rejected insert leaves. *)
Lemma rejected_write_keeps_additions_witness :
  let row := [("a", VStr "1"); ("b", VStr "y")] in
  let s0 := demo_declare [("a", unique_column); ("b", unique_column)]
              (demo_init []) in
  let s1 := (demo_insert mem_table [("b", VStr "x")] s0).2 in
  let s2 := (demo_check row s1).2 in
  demo_insert mem_table row s1 = (Raise (NotUniqueException (OType TStr) "b"), s2)
  ∧ preexisting (constraint_mapping s1) !! "a" = Some ∅
  ∧ preexisting (constraint_mapping s2) !! "a" = Some {[OType TInt]}.
Proof.
  intros row s0 s1 s2. split.
  - apply ((on_standins rejected_write_keeps_additions) mem_table
             row s1 s2 (OType TStr) "b").
    by_compute.
  - split; by_compute.
Defined.

(** ** The further properties on concrete tables *)

(** X1. With the flag off: the empty text and a text of digits both stay
    Strings. *)
Lemma parse_record_flag_off_witness :
  parse_record Standin.strip Standin.nfkd Standin.isdigit Standin.int_
    Standin.float_ Standin.parse Standin.isoformat false
    [("a", VStr ""); ("b", VStr "12")] YType
  = ([("a", OType TStr); ("b", OType TStr)], None).
Proof.
  exact (proj1 (parse_record_flag_off Standin.strip Standin.nfkd
                  Standin.isdigit Standin.int_ Standin.float_ Standin.parse
                  Standin.isoformat false eq_refl
                  [("a", VStr ""); ("b", VStr "12")])).
Defined.

(** X23. The classification on four fields: [" 42 "] is an Integer, ["1.5"] a
    Float, ["2020-01-02"] a Timestamp and ["hello"] a String. *)
Lemma parse_record_classifies_witness :
  demo_parse_record [("n", VStr " 42 ")] YType = ([("n", OType TInt)], None)
  ∧ demo_parse_record [("x", VStr "1.5")] YType = ([("x", OType TFloat)], None)
  ∧ demo_parse_record [("d", VStr "2020-01-02")] YType
    = ([("d", OType TDatetime)], None)
  ∧ demo_parse_record [("s", VStr "hello")] YType = ([("s", OType TStr)], None).
Proof.
  split_and!.
  - apply (proj1 ((on_standins parse_record_classifies) eq_refl eq_refl
                    eq_refl "n" " 42 " [])); [reflexivity|].
    by eexists.
  - apply (proj1 (proj2 ((on_standins parse_record_classifies) eq_refl
                           eq_refl eq_refl "x" "1.5" [])));
      [reflexivity..|]. by eexists.
  - destruct ((on_standins parse_record_classifies) eq_refl eq_refl
                eq_refl "d" "2020-01-02" []) as (_ & _ & _ & Hother).
    apply (proj1 (Hother eq_refl eq_refl ltac:(discriminate)
                    ltac:(discriminate)) 737426 0).
    reflexivity.
  - destruct ((on_standins parse_record_classifies) eq_refl eq_refl
                eq_refl "s" "hello" []) as (_ & _ & _ & Hother).
    apply (proj2 (Hother eq_refl eq_refl ltac:(discriminate)
                    ltac:(discriminate))).
    reflexivity.
Defined.

(** X5. Outer whitespace on the text [" 42 "]. *)
Lemma parse_record_ignores_outer_whitespace_witness :
  demo_parse_record [("n", VStr " 42 ")] YRecord
  = demo_parse_record [("n", VStr "42")] YRecord.
Proof.
  exact ((on_standins parse_record_ignores_outer_whitespace) strip_idem
           eq_refl "n" " 42 " [] YRecord).
Defined.

(** X11. The null check on a record that gives the required column [b] as
    [None]. *)
Lemma null_check_sees_keys_only_witness :
  "b" ∉ demo_missing
          (constraint_mapping (demo_declare [("b", required_column)]
                                 (demo_init [])))
          [("b", VNone)].
Proof.
  apply ((on_standins null_check_sees_keys_only) _ _ "b" VNone).
  - reflexivity.
  - by_compute.
  - discriminate.
Defined.

(** X12. The report on a String column that stores an Integer and a String. *)
Lemma report_of_conforming_table_witness :
  let s := demo_declare [("a", DeclType TStr)]
             (demo_init [[("a", VStr "5")]; [("a", VStr "x")]]) in
  (demo_get_schema mem_table true s).1 = (demo_get_schema mem_table false s).1.
Proof.
  intros s.
  assert (Hty : type_ (constraint_mapping s) = <["a" := Single TStr]> ∅).
  { by_compute. }
  apply ((on_standins report_of_conforming_table) mem_table s).
  - intros k e. rewrite Hty. destruct (decide (k = "a")) as [->|Hne].
    + rewrite lookup_insert_eq. intros [= <-]. eauto.
    + rewrite lookup_insert_ne, lookup_empty by done. discriminate.
  - intros r k Hr Hk. rewrite Hty.
    assert (Hka : k = "a").
    { apply elem_of_cons in Hr as [->|Hr].
      - vm_compute in Hk. by apply list_elem_of_singleton in Hk.
      - apply list_elem_of_singleton in Hr as ->.
        vm_compute in Hk. by apply list_elem_of_singleton in Hk. }
    subst k. rewrite lookup_insert_eq. eauto.
  - by_compute.
Defined.

(** X13. The removal after the check, on a tracked column and one record. *)
Lemma remove_undoes_update_witness :
  let s0 := demo_declare [("id", unique_column)] (demo_init []) in
  let row := [("id", VStr "1")] in
  demo_uncheck row (demo_check row s0).2 = (Ok tt, s0).
Proof.
  intros s0 row.
  apply ((on_standins remove_undoes_update) row s0 (demo_check row s0).2).
  by_compute.
Defined.

(** X15. A write on a table with no tracked column. *)
Lemma untracked_write_is_delegated_witness :
  let row := [("id", VStr "1")] in
  demo_insert mem_table row (demo_init [])
  = super (CallInsert row) (Table_insert mem_table row) (demo_init []).
Proof.
  intros row.
  assert (Hnone : ∀ k : string,
    k ∈ (demo_parse_record row YType).1.*1 →
    preexisting (constraint_mapping (demo_init [])) !! k = None).
  { intros k _. apply lookup_empty. }
  exact (proj1 ((on_standins untracked_write_is_delegated) mem_table row
                  (demo_init []) eq_refl Hnone)).
Defined.

(** X18. The entry of the stored id ["1"] survives the delete of the records
    whose id is ["2"]. *)
Lemma delete_keeps_other_entries_witness :
  let s1 := (demo_insert mem_table [("id", VStr "1")]
               (demo_declare [("id", unique_column)] (demo_init []))).2 in
  ∃ seen',
    preexisting
      (constraint_mapping
         (demo_delete mem_table (column_is "id" (VStr "2")) s1).2) !! "id"
    = Some seen'
    ∧ OType TInt ∈ seen'.
Proof.
  intros s1.
  apply ((on_standins delete_keeps_other_entries) mem_table
           (column_is "id" (VStr "2")) s1 "id" (OType TInt) {[OType TInt]}).
  - by_compute.
  - by_compute.
  - intros r Hr Hf. apply list_elem_of_singleton in Hr as ->.
    vm_compute in Hf. discriminate Hf.
Defined.

(** X19. With the storage refusing writes: the insert of id ["1"] is refused by
    the storage after the check accepted it, and id ["2"] is then
    rejected. *)
Lemma accepted_entry_blocks_writes_witness :
  let s0 := demo_declare [("id", unique_column)] (demo_init []) in
  let s1 := (demo_insert down_table [("id", VStr "1")] s0).2 in
  let row' := [("id", VStr "2")] in
  ∃ k' v',
    (demo_insert down_table row' s1).1 = Raise (NotUniqueException v' k')
    ∧ rows (demo_insert down_table row' s1).2 = rows s1
    ∧ ∀ keys,
        (demo_insert_ignore down_table row' keys s1).1
        = Raise (NotUniqueException v' k')
        ∧ (demo_update down_table row' keys s1).1
          = Raise (NotUniqueException v' k')
        ∧ (demo_upsert down_table row' keys s1).1
          = Raise (NotUniqueException v' k')
        ∧ rows (demo_update down_table row' keys s1).2 = rows s1.
Proof.
  intros s0 s1 row'.
  apply ((on_standins accepted_entry_blocks_writes) down_table
           [("id", VStr "1")] row' s0 "id" (OType TInt)).
  - by_compute.
  - by_compute.
  - by_compute.
  - by_compute.
Defined.

(** X20. The sanitizer with the sanitize flag off. *)
Lemma sanitize_gates_witness :
  let batch := [[("a", VStr "5")]] in
  let s := demo_declare [("a", DeclType TStr)] (demo_init []) in
  demo_sanitize false batch s = (Ok (unmodified batch), s).
Proof.
  intros batch s.
  exact (proj1 ((on_standins sanitize_gates) false Standin.str_value
                  mem_table batch s) eq_refl).
Defined.

(** X21. The sanitizer on a record with a numeric text in a String column. *)
Lemma sanitized_record_holds_classes_witness :
  let r := [("a", VStr "5"); ("b", VStr "hello")] in
  Forall (λ kx, ∃ t,
            (kx.1, OType t) ∈ (demo_parse_record r YType).1
            ∧ (kx.2 = OType t ∨ kx.2 = OValue (VStr (str_of_type t))))
    [("a", OValue (VStr "<class 'int'>")); ("b", OType TStr)].
Proof.
  intros r.
  apply ((on_standins sanitized_record_holds_classes) Standin.str_value r
           (demo_declare [("a", DeclType TStr)] (demo_init []))
           (demo_records_step r
              (demo_declare [("a", DeclType TStr)] (demo_init []))).2).
  by_compute.
Defined.

(** X22. On a tracked column: insert id ["1"], delete by that id. *)
Lemma delete_after_insert_restores_witness :
  let s0 := demo_declare [("id", unique_column)] (demo_init []) in
  let row := [("id", VStr "1")] in
  constraint_mapping
    (demo_delete mem_table (column_is "id" (VStr "1"))
       (demo_insert mem_table row s0).2).2
  = constraint_mapping s0.
Proof.
  intros s0 row.
  apply ((on_standins delete_after_insert_restores) mem_table row
           (column_is "id" (VStr "1")) s0).
  - by_compute.
  - reflexivity.
  - by_compute.
Defined.

(** X24. A delete that does not reach the removal. With the storage out of
    reach the search raises and the table is left as it was, one call
    logged. With a stored record that does not parse among those found, the
    delete raises the [ValueError] of its parse; the record found before it
    has lost its entry in the seen-set of [id], and the stored rows are all
    still there. *)
Lemma delete_stops_before_removal_witness :
  let s := {| rows := [[("id", VStr "x")]; [("id", VStr tham_digit_one)]];
              constraint_mapping :=
                {| type_ := ∅; not_null := ∅;
                   preexisting := {["id" := {[OType TStr]}]} |};
              calls := [] |} in
  let everything := λ _ : record, true in
  demo_delete offline_table everything s = (Raise StorageError, searched s)
  ∧ (demo_delete mem_table everything s).1 = Raise ValueError
  ∧ rows (demo_delete mem_table everything s).2 = rows s
  ∧ calls (demo_delete mem_table everything s).2 = [CallFind]
  ∧ preexisting (constraint_mapping (demo_delete mem_table everything s).2)
      !! "id" = Some ∅.
Proof.
  intros s everything. split.
  - exact (proj1 ((on_standins delete_stops_before_removal) offline_table
                    everything s) eq_refl).
  - destruct (proj2 ((on_standins delete_stops_before_removal) mem_table
                       everything s) eq_refl
                [[("id", VStr "x")]] [("id", VStr tham_digit_one)] []
                ValueError eq_refl eq_refl eq_refl)
      as (Hout & Hrows & Hcalls & Hcm).
    split_and!; [exact Hout|exact Hrows|exact Hcalls|].
    unfold demo_delete. rewrite Hcm. by_compute.
Defined.

